(** * A prefix tree mapping keys to values: [trie/trie.py]

    Shallow embedding of the [Trie] class (a [MutableMapping]) and of its
    node class [_Entry] (a [dict] subclass with an optional [value]
    attribute), followed by the properties of the mapping operations,
    of the size counter and of the prefix enumeration.

    Modelling conventions.
    - A key is a finite sequence of hashable symbols: [list A], with
      decidable equality on [A].  Strings are the instance [A := ascii].
    - An [_Entry] object is a [dict] (insertion ordered, unique keys: an
      association list in insertion order) together with the attribute
      [value], which is either absent or present ([option V]).
    - Every [_Entry] is created in [_find] and linked below exactly one
      parent, so the object graph is a tree, and a reference to an entry
      is represented by the path that leads to it from [self._root]
      ([Ref]).  Reading and writing through a reference go through the
      tree stored in the [Trie] object.
    - Methods are computations in a state-and-exception monad [M] over
      the fields of [Trie]; a raised exception keeps the mutations done so
      far, as in Python.
    - A generator is its frame (the point where it is suspended and its
      local variables) and a [next] function. *)

From Stdlib Require Import ZArith Ascii String Lia.
From stdpp Require Import base list option strings pretty.

#[local] Open Scope Z_scope.
#[local] Open Scope list_scope.

(** ** Python [dict] as an insertion-ordered association list *)

Section Dict.
Context {K : Type} `{EqDecision K} {T : Type}.

(** [d[k]], [None] standing for the absence of the key ([k in d] is
    [is_Some (dict_get d k)]). *)
Fixpoint dict_get (d : list (K * T)) (k : K) : option T :=
  match d with
  | [] => None
  | (k', x) :: d' => if decide (k = k') then Some x else dict_get d' k
  end.

(** [d[k] = x]: an existing key keeps its position, a new key goes to
    the end. *)
Fixpoint dict_set (d : list (K * T)) (k : K) (x : T) : list (K * T) :=
  match d with
  | [] => [(k, x)]
  | (k', y) :: d' =>
      if decide (k = k') then (k', x) :: d' else (k', y) :: dict_set d' k x
  end.
End Dict.

(** ** Exceptions and results *)

(** The exceptions that the code raises or lets through.  [Stuck] is not a
    Python exception: it marks a machine that cannot go on (a reference
    that leads nowhere, or a loop that used up its step budget).  The
    theorems below compute the outcome of every operation, and it is
    never [Stuck]. *)
Inductive exn {A : Type} : Type :=
| KeyError (key : list A)
| StopIteration
| RuntimeError
| AttributeError
| TypeError
| Stuck.
Arguments exn : clear implicits.

Inductive result (A T : Type) : Type :=
| Ok (x : T)
| Raise (e : exn A).
Arguments Ok {A T} x.
Arguments Raise {A T} e.

(** ** The node class [_Entry] *)

#[local] Unset Elimination Schemes.
Inductive _Entry (A V : Type) : Type :=
  mk_Entry { value : option V; dict : list (A * _Entry A V) }.
#[local] Set Elimination Schemes.
Arguments mk_Entry {A V} value dict.
Arguments value {A V} _.
Arguments dict {A V} _.

(** [_Entry()]: an empty dict without the [value] attribute. *)
Definition new_Entry {A V} : _Entry A V := mk_Entry None [].

(** The [Trie] object: its two attributes. *)
Record Trie (A V : Type) : Type :=
  mk_Trie { _root : _Entry A V; _length : Z }.
Arguments mk_Trie {A V} _root _length.
Arguments _root {A V} _.
Arguments _length {A V} _.

(** A reference to an entry: the symbols on the way from the root. *)
Definition Ref (A : Type) : Type := list A.

Section Entry.
Context {A : Type} `{EqDecision A} {V : Type}.
Implicit Types (e : _Entry A V) (d : list (A * _Entry A V)).

(** The entry that a reference designates in the tree under [root]. *)
Fixpoint deref (root : _Entry A V) (r : Ref A) : option (_Entry A V) :=
  match r with
  | [] => Some root
  | c :: r' =>
      match dict_get (dict root) c with
      | Some ch => deref ch r'
      | None => None
      end
  end.

(** The tree after the entry designated by [r] was mutated by [f]. *)
Fixpoint update (root : _Entry A V) (r : Ref A)
    (f : _Entry A V → _Entry A V) : _Entry A V :=
  match r with
  | [] => f root
  | c :: r' =>
      match dict_get (dict root) c with
      | Some ch =>
          mk_Entry (value root) (dict_set (dict root) c (update ch r' f))
      | None => root
      end
  end.

(** Number of entries below and including [e]; number of those whose
    [value] attribute is set. *)
Fixpoint size (e : _Entry A V) : nat :=
  match e with
  | mk_Entry _ d =>
      S ((fix go d := match d with
                      | [] => O
                      | (_, ch) :: d' => (size ch + go d')%nat
                      end) d)
  end.

Fixpoint count_values (e : _Entry A V) : nat :=
  match e with
  | mk_Entry v d =>
      (match v with Some _ => 1 | None => 0 end +
       (fix go d := match d with
                    | [] => O
                    | (_, ch) :: d' => (count_values ch + go d')%nat
                    end) d)%nat
  end.

(** The pairs below [e] in the order of the walk of [items]: the pair
    of the entry itself, then the subtrees of its children, the child
    that was linked last coming first. *)
Fixpoint dfs (prefix : list A) (e : _Entry A V) : list (list A * V) :=
  match e with
  | mk_Entry v d =>
      (match v with Some x => [(prefix, x)] | None => [] end) ++
      (fix go d := match d with
                   | [] => []
                   | (c, ch) :: d' => go d' ++ dfs (prefix ++ [c]) ch
                   end) d
  end.

(** Keys of every dict in the tree are pairwise distinct, as in any
    Python dict. *)
Fixpoint wf (e : _Entry A V) : Prop :=
  match e with
  | mk_Entry _ d =>
      NoDup d.*1 ∧
      (fix go d := match d with
                   | [] => True
                   | (_, ch) :: d' => wf ch ∧ go d'
                   end) d
  end.
End Entry.

(** ** The state and exception monad of the methods *)

Section Methods.
Context {A : Type} `{EqDecision A} {V : Type}.

Definition M (T : Type) : Type := Trie A V → result A T * Trie A V.

#[export] Instance M_ret : MRet M := λ T x s, (Ok x, s).
#[export] Instance M_bind : MBind M := λ T U k m s,
  match m s with
  | (Ok x, s') => k x s'
  | (Raise e, s') => (Raise e, s')
  end.

Definition raise {T} (e : exn A) : M T := λ s, (Raise e, s).

(** [try: body  except KeyError: handler]. *)
Definition try_except_KeyError {T} (body handler : M T) : M T := λ s,
  match body s with
  | (Raise (KeyError _), s') => handler s'
  | r => r
  end.

(** Access to the object behind a reference. *)
Definition read (entry : Ref A) : M (_Entry A V) := λ s,
  match deref (_root s) entry with
  | Some e => (Ok e, s)
  | None => (Raise Stuck, s)
  end.

Definition write (entry : Ref A) (f : _Entry A V → _Entry A V) : M unit :=
  λ s, (Ok (), mk_Trie (update (_root s) entry f) (_length s)).

(** *** [_Entry]: the attribute [value] and the inherited dict methods *)

(** [entry.has_value()], that is [hasattr(entry, 'value')]. *)
Definition has_value (entry : Ref A) : M bool :=
  e ← read entry;
  mret (match value e with Some _ => true | None => false end).

(** [entry.value] *)
Definition getattr_value (entry : Ref A) : M V :=
  e ← read entry;
  match value e with
  | Some v => mret v
  | None => raise AttributeError
  end.

(** [entry.value = v] *)
Definition setattr_value (entry : Ref A) (v : V) : M unit :=
  write entry (λ e, mk_Entry (Some v) (dict e)).

(** [del entry.value] *)
Definition delattr_value (entry : Ref A) : M unit :=
  e ← read entry;
  match value e with
  | Some _ => write entry (λ e, mk_Entry None (dict e))
  | None => raise AttributeError
  end.

(** [char in entry] *)
Definition contains (entry : Ref A) (char : A) : M bool :=
  e ← read entry;
  mret (match dict_get (dict e) char with Some _ => true | None => false end).

(** [entry[char]]: the reference to the child. *)
Definition getitem (entry : Ref A) (char : A) : M (Ref A) :=
  e ← read entry;
  match dict_get (dict e) char with
  | Some _ => mret (entry ++ [char])
  | None => raise (KeyError [char])
  end.

(** [new_entry = _Entry(); entry[char] = new_entry], giving the
    reference [new_entry]. *)
Definition setitem_new (entry : Ref A) (char : A) : M (Ref A) :=
  write entry (λ e, mk_Entry (value e) (dict_set (dict e) char new_Entry));;
  mret (entry ++ [char]).

(** [entry.items()]: the symbols with the references to the children,
    in the order of the dict. *)
Definition entry_items (entry : Ref A) : M (list (A * Ref A)) :=
  e ← read entry;
  mret ((λ p, (p.1, entry ++ [p.1])) <$> dict e).

(** *** [Trie]: attributes *)

Definition self_root : M (Ref A) := mret [].
Definition get_length : M Z := λ s, (Ok (_length s), s).
Definition set_length (n : Z) : M unit := λ s, (Ok (), mk_Trie (_root s) n).

(** *** [Trie]: methods *)

(** The loop [for char in key] of [_find]; [rest] is what is left of
    [key] to iterate over. *)
Fixpoint _find_loop (key : list A) (create : bool) (rest : list A)
    (entry : Ref A) : M (Ref A) :=
  match rest with
  | [] => mret entry
  | char :: rest' =>
      b ← contains entry char;
      if b : bool then
        entry' ← getitem entry char;
        _find_loop key create rest' entry'
      else if create then
        new_entry ← setitem_new entry char;
        _find_loop key create rest' new_entry
      else raise (KeyError key)
  end.

Definition _find (key : list A) (create : bool) : M (Ref A) :=
  entry ← self_root;
  _find_loop key create key entry.

Definition _set_entry (entry : Ref A) (v : V) : M unit :=
  b ← has_value entry;
  (if negb b then n ← get_length; set_length (n + 1) else mret ());;
  setattr_value entry v.

Definition __getitem__ (key : list A) : M V :=
  entry ← _find key false;
  b ← has_value entry;
  if b : bool then getattr_value entry else raise (KeyError key).

Definition __setitem__ (key : list A) (v : V) : M unit :=
  entry ← _find key true;
  _set_entry entry v.

Definition __delitem__ (key : list A) : M unit :=
  entry ← _find key false;
  b ← has_value entry;
  if b : bool then
    delattr_value entry;;
    n ← get_length; set_length (n - 1)
  else raise (KeyError key).

Definition __len__ : M Z := get_length.

(** [Mapping.__contains__], inherited:
    [try: self[key]  except KeyError: return False  else: return True]. *)
Definition __contains__ (key : list A) : M bool :=
  try_except_KeyError (__getitem__ key;; mret true) (mret false).

(** [value_selector] is a Python callable: it returns or raises. *)
Definition call {T U} (f : T → result A U) (x : T) : M U := λ s, (f x, s).

Definition transform (key : list A) (value_selector : V → result A V)
    (default : V) : M unit :=
  entry ← _find key true;
  b ← has_value entry;
  old ← (if b : bool then getattr_value entry else mret default);
  v ← call value_selector old;
  _set_entry entry v.

(** [MutableMapping.update] on a sequence of pairs, and [Trie(...)]. *)
Fixpoint update_pairs (pairs : list (list A * V)) : M unit :=
  match pairs with
  | [] => mret ()
  | (key, v) :: pairs' => __setitem__ key v;; update_pairs pairs'
  end.

Definition __init__ (pairs : list (list A * V)) : result A unit * Trie A V :=
  update_pairs pairs (mk_Trie new_Entry 0).
End Methods.

(** ** The generators [items] and [keys] *)

(** A Python list used as a stack: [append] adds at the end, [pop()]
    takes the last element. *)
Definition py_pop {T} (l : list T) : option (list T * T) :=
  match reverse l with
  | [] => None
  | x :: r => Some (reverse r, x)
  end.

(** The frame of the generator [items]: not started yet; suspended at
    the [yield], with its locals; or finished. *)
Inductive frame (A : Type) : Type :=
| AtStart (prefix : list A)
| AtYield (stack : list (list A * Ref A)) (current_prefix : list A)
          (entry : Ref A)
| Finished.
Arguments AtStart {A} prefix.
Arguments AtYield {A} stack current_prefix entry.
Arguments Finished {A}.

(** What running the body of a generator up to its next stop gives. *)
Inductive signal (Y : Type) : Type :=
| Yield (item : Y)
| Return.
Arguments Yield {Y} item.
Arguments Return {Y}.

Section Generators.
Context {A : Type} `{EqDecision A} {V : Type}.
#[local] Abbreviation M := (@M A V).

(** Step budget of the [while] loop: every iteration pops one entry and
    pushes its children, so the entries below the stack bound it. *)
Definition weight (root : _Entry A V) (stack : list (list A * Ref A)) : nat :=
  sum_list_with (λ p, from_option size O (deref root p.2)) stack.

(** [for char, children in entry.items():
       stack.append((current_prefix + char, children))]
    The keys are [str]: a symbol is one character and [+] appends it to
    the text read so far.  (With symbols that are not [str], [+] on the
    default prefix [''] raises [TypeError], and a symbol of several
    characters is appended as a whole: the enumeration is exact for [str]
    keys only, and the statements about it are to be read for them.) *)
Definition items_for (stack : list (list A * Ref A))
    (current_prefix : list A) (entry : Ref A) : M (list (list A * Ref A)) :=
  kids ← entry_items entry;
  mret (foldl (λ st p, st ++ [(current_prefix ++ [p.1], p.2)]) stack kids).

(** [while stack: ...], from the test of the loop to the next [yield]
    or to the end of the body. *)
Fixpoint items_while (fuel : nat) (stack : list (list A * Ref A))
    : M (signal (list A * V) * frame A) :=
  match fuel with
  | O => raise Stuck
  | S fuel' =>
      match py_pop stack with
      | None => mret (Return, Finished)
      | Some (stack', (current_prefix, entry)) =>
          b ← has_value entry;
          if b : bool then
            v ← getattr_value entry;
            mret (Yield (current_prefix, v),
                  AtYield stack' current_prefix entry)
          else
            stack'' ← items_for stack' current_prefix entry;
            items_while fuel' stack''
      end
  end.

Definition run_while (stack : list (list A * Ref A))
    : M (signal (list A * V) * frame A) :=
  λ s, items_while (S (weight (_root s) stack)) stack s.

(** The body of [items], resumed from a frame. *)
Definition items_resume (g : frame A) : M (signal (list A * V) * frame A) :=
  match g with
  | AtStart prefix =>
      start ← try_except_KeyError (_find prefix false) (raise StopIteration);
      run_while [(prefix, start)]
  | AtYield stack current_prefix entry =>
      stack' ← items_for stack current_prefix entry;
      run_while stack'
  | Finished => mret (Return, Finished)
  end.

(** [next(g)] on the generator of [items].  A body that returns makes
    [next] raise [StopIteration].  A [StopIteration] raised inside the
    body is replaced by [RuntimeError] when [generator_stop] holds
    (PEP 479: always from Python 3.7 on), and is passed on otherwise
    (the behaviour up to Python 3.6). *)
Definition items_next (generator_stop : bool) (g : frame A)
    (s : Trie A V) : result A (list A * V) * frame A * Trie A V :=
  match items_resume g s with
  | (Ok (Yield item, g'), s') => (Ok item, g', s')
  | (Ok (Return, _), s') => (Raise StopIteration, Finished, s')
  | (Raise StopIteration, s') =>
      (Raise (if generator_stop then RuntimeError else StopIteration),
       Finished, s')
  | (Raise e, s') => (Raise e, Finished, s')
  end.

(** [next] on [(key for key, value in self.items(prefix))]: the frame
    of the generator expression is the iterator it loops over. *)
Definition keys_next (generator_stop : bool) (g : frame A)
    (s : Trie A V) : result A (list A) * frame A * Trie A V :=
  match items_next generator_stop g s with
  | (Ok (key, _), g', s') => (Ok key, g', s')
  | (Raise e, g', s') => (Raise e, g', s')
  end.

(** [self.items(prefix)] and [self.keys(prefix)] create the generator
    and run nothing of its body. *)
Definition items (prefix : list A) : frame A := AtStart prefix.
Definition keys (prefix : list A) : frame A := items prefix.

(** [list(g)]: calls [next] until it raises; [StopIteration] ends the
    list, anything else goes to the caller. *)
Fixpoint py_list_loop {Y} (fuel : nat)
    (next : frame A → Trie A V → result A Y * frame A * Trie A V)
    (g : frame A) (acc : list Y) : M (list Y) := λ s,
  match fuel with
  | O => (Raise Stuck, s)
  | S fuel' =>
      match next g s with
      | (Ok y, g', s') => py_list_loop fuel' next g' (acc ++ [y]) s'
      | (Raise StopIteration, _, s') => (Ok acc, s')
      | (Raise e, _, s') => (Raise e, s')
      end
  end.

Definition frame_weight (root : _Entry A V) (g : frame A) : nat :=
  match g with
  | AtStart _ => S (size root)
  | AtYield stack current_prefix entry =>
      weight root ((current_prefix, entry) :: stack)
  | Finished => O
  end.

Definition py_list {Y}
    (next : frame A → Trie A V → result A Y * frame A * Trie A V)
    (g : frame A) : M (list Y) :=
  λ s, py_list_loop (S (frame_weight (_root s) g)) next g [] s.
End Generators.

(** ** The mapping that a trie stands for, and its invariant *)

(** [f] applied under [Ok]. *)
Definition result_map {A T U} (f : T → U) (r : result A T) : result A U :=
  match r with
  | Ok x => Ok (f x)
  | Raise e => Raise e
  end.

Section Spec.
Context {A : Type} `{EqDecision A} {V : Type}.

(** The value that [key] is mapped to, if any: the path of [key]
    exists and the entry at its end has the attribute [value]. *)
Definition mapped (t : Trie A V) (key : list A) : option V :=
  e ← deref (_root t) key; value e.

(** The counter agrees with the tree, and the tree is made of dicts. *)
Definition Inv (t : Trie A V) : Prop :=
  wf (_root t) ∧ _length t = Z.of_nat (count_values (_root t)).

(** The tree once [_find(key, create=True)] has run: the entries that
    were missing on the path of [key] are linked, each at the end of the
    dict of its parent. *)
Fixpoint mkpath (e : _Entry A V) (key : list A) : _Entry A V :=
  match key with
  | [] => e
  | c :: key' =>
      mk_Entry (value e)
        (dict_set (dict e) c
           (mkpath (default new_Entry (dict_get (dict e) c)) key'))
  end.

(** The two writes to the attribute [value]. *)
Definition with_value (v : V) (e : _Entry A V) : _Entry A V :=
  mk_Entry (Some v) (dict e).
Definition without_value (e : _Entry A V) : _Entry A V :=
  mk_Entry None (dict e).

(** What a stack of the walk still has to yield, top of the stack (the
    end of the list) first. *)
Definition pending (root : _Entry A V) (stack : list (list A * Ref A))
    : list (list A * V) :=
  reverse stack ≫= λ p, from_option (dfs p.1) [] (deref root p.2).

(** The children of [e], as [items] pushes them. *)
Definition kids (current_prefix : list A) (entry : Ref A) (e : _Entry A V)
    : list (list A * Ref A) :=
  (λ p, (current_prefix ++ [p.1], entry ++ [p.1])) <$> dict e.

Definition stack_ok (root : _Entry A V) (stack : list (list A * Ref A)) : Prop :=
  Forall (λ p, is_Some (deref root p.2)) stack.

(** Frames whose references designate entries of the tree, and what
    such a frame yields from its next resumption to its end. *)
Definition frame_ok (root : _Entry A V) (g : frame A) : Prop :=
  match g with
  | AtStart prefix => is_Some (deref root prefix)
  | AtYield stack _ entry => stack_ok root stack ∧ is_Some (deref root entry)
  | Finished => True
  end.

Definition frame_pending (root : _Entry A V) (g : frame A)
    : list (list A * V) :=
  match g with
  | AtStart prefix => from_option (dfs prefix) [] (deref root prefix)
  | AtYield stack current_prefix entry =>
      pending root
        (stack ++ from_option (kids current_prefix entry) [] (deref root entry))
  | Finished => []
  end.

(** A computation that leaves the trie as it found it. *)
Definition read_only {T} (m : M (A:=A) (V:=V) T) : Prop :=
  ∀ s, (m s).2 = s.
End Spec.

(** ** The trie of the docstring *)

Module Example.
(** The Python values that the examples store. *)
Inductive PyObj : Type :=
| PyNone
| PyInt (n : Z)
| PyStr (s : string).

Definition str (s : string) : list ascii := list_ascii_of_string s.

(** [Trie(she=1, sells=5, sea=10, shells=19, today=5)] *)
Definition trie : Trie ascii PyObj :=
  (__init__ [(str "she", PyInt 1); (str "sells", PyInt 5);
             (str "sea", PyInt 10); (str "shells", PyInt 19);
             (str "today", PyInt 5)]).2.

(** [lambda old: old - 60] and [lambda old: old + 1]: integers only. *)
Definition minus60 (old : PyObj) : result ascii PyObj :=
  match old with
  | PyInt n => Ok (PyInt (n - 60))
  | _ => Raise TypeError
  end.

Definition plus1 (old : PyObj) : result ascii PyObj :=
  match old with
  | PyInt n => Ok (PyInt (n + 1))
  | _ => Raise TypeError
  end.
End Example.


(** ** The remaining methods of [Trie] *)

Section MoreMethods.
Context {A : Type} `{EqDecision A} {V : Type}.

(** [__iter__]: [iter(self.keys())], the generator of [keys] with its
    default prefix; [next] on it is [keys_next]. *)
Definition __iter__ : frame A := keys [].

(** [__repr__].  [format_key] and [format_value] stand for what
    ['{}'.format] makes of a key and of a value. *)
Section Repr.
Variables (format_key : list A → string) (format_value : V → string).

(** [next] on ['{}={}'.format(key, value) for key, value in self.items()]. *)
Definition pairs_next (generator_stop : bool) (g : frame A)
    (s : Trie A V) : result A string * frame A * Trie A V :=
  match items_next generator_stop g s with
  | (Ok (key, v), g', s') =>
      (Ok (String.append (format_key key)
             (String.append "=" (format_value v))), g', s')
  | (Raise e, g', s') => (Raise e, g', s')
  end.

(** The text of one pair. *)
Definition format_pair (it : list A * V) : string :=
  String.append (format_key it.1) (String.append "=" (format_value it.2)).

(** [', '.join(pairs)] runs the generator to its end, then
    ['Trie({})'.format] wraps the text. *)
Definition __repr__ (generator_stop : bool) : M (A:=A) (V:=V) string :=
  pairs ← py_list (pairs_next generator_stop) (items []);
  mret (String.append "Trie("
          (String.append (String.concat ", " pairs) ")")).
End Repr.

(** What a [dict] built from the same pairs maps [k] to: the value of
    the last pair with the key [k]. *)
Fixpoint lookup_pairs (pairs : list (list A * V)) (k : list A) : option V :=
  match pairs with
  | [] => None
  | (k', v) :: pairs' =>
      match lookup_pairs pairs' k with
      | Some x => Some x
      | None => if decide (k = k') then Some v else None
      end
  end.
End MoreMethods.

Module ExampleFormat.
(** ['{}'.format] on the values of the examples. *)
Definition format_value (v : Example.PyObj) : string :=
  match v with
  | Example.PyNone => "None"
  | Example.PyInt n => pretty n
  | Example.PyStr s => s
  end.
End ExampleFormat.


Module ExampleLeft.
(** [Trie(she=1, shells=19)] after [del trie['shells']], and [Trie(she=1)]:
    the same keys with the same values, the first with the entries of
    [shells] left in the tree. *)
Definition deleted : Trie ascii Example.PyObj :=
  (__delitem__ (Example.str "shells")
     (__init__ [(Example.str "she", Example.PyInt 1);
                (Example.str "shells", Example.PyInt 19)]).2).2.

Definition never_set : Trie ascii Example.PyObj :=
  (__init__ [(Example.str "she", Example.PyInt 1)]).2.
End ExampleLeft.


(** * Properties *)

(** ** Dicts *)

Section DictFacts.
Context {K : Type} `{EqDecision K} {T : Type}.
Implicit Types (d : list (K * T)) (k : K) (x y : T).

Lemma dict_get_set_eq d k x : dict_get (dict_set d k x) k = Some x.
Proof.
  induction d as [|[k' y] d IH]; simpl.
  - by rewrite decide_True.
  - destruct (decide (k = k')) as [->|Hne]; simpl.
    + by rewrite decide_True.
    + by rewrite decide_False.
Qed.

Lemma dict_get_set_ne d k k' x :
  k ≠ k' → dict_get (dict_set d k x) k' = dict_get d k'.
Proof.
  intros Hne. induction d as [|[k0 y] d IH]; simpl.
  - by rewrite decide_False.
  - destruct (decide (k = k0)) as [->|Hk]; simpl.
    + by rewrite !decide_False.
    + by rewrite IH.
Qed.

Lemma dict_set_None d k x :
  dict_get d k = None → dict_set d k x = d ++ [(k, x)].
Proof.
  induction d as [|[k' y] d IH]; simpl; [done|].
  destruct (decide (k = k')); [done|]. intros H. by rewrite IH.
Qed.

Lemma dict_set_keys d k x :
  is_Some (dict_get d k) → (dict_set d k x).*1 = d.*1.
Proof.
  induction d as [|[k' y] d IH]; simpl.
  - by intros [? ?].
  - destruct (decide (k = k')); [done|]. intros H.
    rewrite !fmap_cons. f_equal. by apply IH.
Qed.

Lemma dict_get_None d k : dict_get d k = None ↔ k ∉ d.*1.
Proof.
  induction d as [|[k' y] d IH]; simpl.
  - split; [intros _; apply not_elem_of_nil | done].
  - rewrite not_elem_of_cons. destruct (decide (k = k')) as [->|Hne].
    + split; [done | by intros [? _]].
    + rewrite IH. split; [by intros ? | by intros [_ ?]].
Qed.

Lemma dict_get_Some_split d k x :
  dict_get d k = Some x →
  ∃ d1 d2, d = d1 ++ (k, x) :: d2 ∧ dict_get d1 k = None.
Proof.
  induction d as [|[k' y] d IH]; simpl; [done|].
  destruct (decide (k = k')) as [->|Hne].
  - intros [= ->]. by exists [], d.
  - intros (d1 & d2 & -> & Hd1)%IH. exists ((k', y) :: d1), d2.
    split; [done|]. simpl. by rewrite decide_False.
Qed.

Lemma dict_get_app_None d1 d2 k :
  dict_get d1 k = None → dict_get (d1 ++ d2) k = dict_get d2 k.
Proof.
  induction d1 as [|[k' y] d1 IH]; simpl; [done|].
  destruct (decide (k = k')); [done|]. apply IH.
Qed.

Lemma dict_set_split d1 d2 k x y :
  dict_get d1 k = None →
  dict_set (d1 ++ (k, x) :: d2) k y = d1 ++ (k, y) :: d2.
Proof.
  induction d1 as [|[k' z] d1 IH]; simpl.
  - by rewrite decide_True.
  - destruct (decide (k = k')); [done|]. intros H. by rewrite IH.
Qed.

Lemma dict_get_elem_of d k x : dict_get d k = Some x → (k, x) ∈ d.
Proof.
  intros (d1 & d2 & -> & _)%dict_get_Some_split.
  apply elem_of_app. right. apply elem_of_cons. by left.
Qed.

Lemma dict_get_NoDup d k x :
  NoDup d.*1 → (k, x) ∈ d → dict_get d k = Some x.
Proof.
  induction d as [|[k' y] d IH].
  - intros _ H. by apply elem_of_nil in H.
  - rewrite fmap_cons, list.NoDup_cons. simpl.
    intros [Hk' Hnd] [[= -> ->]|Hin]%elem_of_cons.
    + by rewrite decide_True.
    + rewrite decide_False; [by apply IH|].
      intros ->. apply Hk'. apply list_elem_of_fmap. by exists (k', x).
Qed.
Lemma dict_set_same d k x : dict_get d k = Some x → dict_set d k x = d.
Proof.
  induction d as [|[k' y] d IH]; simpl; [done|].
  destruct (decide (k = k')) as [->|Hne].
  - by intros [= ->].
  - intros Hx. by rewrite IH.
Qed.

Lemma dict_set_set d k x y : dict_set (dict_set d k x) k y = dict_set d k y.
Proof.
  induction d as [|[k' z] d IH]; simpl.
  - by rewrite decide_True.
  - destruct (decide (k = k')) as [->|Hne]; simpl.
    + by rewrite decide_True.
    + by rewrite decide_False, IH.
Qed.

(** Sums over the values of a dict, before and after [d[k] = x]. *)
Lemma sum_dict_set (g : T → nat) d k x :
  (sum_list_with (λ p, g p.2) (dict_set d k x)
     + from_option g O (dict_get d k))%nat
  = (sum_list_with (λ p, g p.2) d + g x)%nat.
Proof.
  induction d as [|[k' y] d IH]; simpl; [lia|].
  destruct (decide (k = k')) as [->|Hne]; simpl; lia.
Qed.

Lemma Forall_dict_set (P : T → Prop) d k x :
  Forall (λ p, P p.2) d → P x → Forall (λ p, P p.2) (dict_set d k x).
Proof.
  intros Hd Hx. induction Hd as [|[k' y] d Hy Hd IH]; simpl.
  - by repeat constructor.
  - destruct (decide (k = k')); constructor; done.
Qed.

Lemma NoDup_dict_set d k x : NoDup d.*1 → NoDup (dict_set d k x).*1.
Proof.
  intros Hd. destruct (dict_get d k) as [y|] eqn:Hk.
  - by rewrite dict_set_keys.
  - rewrite dict_set_None, fmap_app by done. apply NoDup_app.
    split_and!; [done| |apply NoDup_singleton].
    intros k' Hk' ->%list_elem_of_singleton. by apply dict_get_None in Hk.
Qed.

(** With distinct keys, [d[k] = x] on a present key rewrites the one
    pair of [k]. *)
Lemma dict_set_fmap d k x :
  NoDup d.*1 → is_Some (dict_get d k) →
  dict_set d k x = (λ p, if decide (p.1 = k) then (p.1, x) else p) <$> d.
Proof.
  induction d as [|[k' y] d IH]; [by intros _ [? ?]|].
  rewrite fmap_cons, list.NoDup_cons. intros [Hk' Hnd]. simpl.
  destruct (decide (k = k')) as [->|Hne].
  - intros _. rewrite decide_True by done. f_equal.
    clear IH. induction d as [|[k0 z] d IH]; [done|].
    rewrite fmap_cons, not_elem_of_cons in Hk'. destruct Hk' as [Hk0 Hk'].
    apply list.NoDup_cons in Hnd as [_ Hnd]. simpl.
    rewrite decide_False by done. f_equal. by apply IH.
  - intros Hk. rewrite decide_False by done. f_equal. by apply IH.
Qed.
End DictFacts.

(** ** Trees of entries *)

Section EntryFacts.
Context {A : Type} `{EqDecision A} {V : Type}.
Implicit Types (e root ch : _Entry A V) (d : list (A * _Entry A V)).
Implicit Types (r key prefix : list A) (c : A) (v : option V).
Implicit Types (f g : _Entry A V → _Entry A V).

Lemma _Entry_ind (P : _Entry A V → Prop) :
  (∀ v d, Forall (λ p, P p.2) d → P (mk_Entry v d)) → ∀ e, P e.
Proof.
  intros IH. fix rec 1. intros [v d]. apply IH.
  induction d as [|[c ch] d IHd]; constructor; [apply rec | apply IHd].
Qed.

Lemma size_eq v d :
  size (mk_Entry v d) = S (sum_list_with (λ p, size p.2) d).
Proof. simpl. f_equal. induction d as [|[c ch] d IH]; simpl; congruence. Qed.

Lemma count_values_eq v d :
  count_values (mk_Entry v d)
  = (match v with Some _ => 1 | None => 0 end
     + sum_list_with (λ p, count_values p.2) d)%nat.
Proof. simpl. f_equal. induction d as [|[c ch] d IH]; simpl; congruence. Qed.

Lemma dfs_eq prefix v d :
  dfs prefix (mk_Entry v d)
  = match v with Some x => [(prefix, x)] | None => [] end
    ++ (reverse d ≫= λ p, dfs (prefix ++ [p.1]) p.2).
Proof.
  simpl. f_equal. induction d as [|[c ch] d IH]; [done|].
  rewrite reverse_cons, bind_app, IH, bind_singleton. done.
Qed.

Lemma wf_eq v d :
  wf (mk_Entry v d) ↔ NoDup d.*1 ∧ Forall (λ p, wf p.2) d.
Proof.
  simpl. apply and_iff_compat_l.
  induction d as [|[c ch] d IH]; simpl.
  - split; [by constructor | done].
  - rewrite Forall_cons, IH. done.
Qed.

Lemma size_pos e : (0 < size e)%nat.
Proof. destruct e. rewrite size_eq. lia. Qed.

(** *** References *)

Lemma deref_app root r1 r2 :
  deref root (r1 ++ r2) = deref root r1 ≫= λ e, deref e r2.
Proof.
  revert root. induction r1 as [|c r1 IH]; intros root; simpl; [done|].
  destruct (dict_get (dict root) c); [apply IH | done].
Qed.

Lemma deref_snoc root r c :
  deref root (r ++ [c]) = deref root r ≫= λ e, dict_get (dict e) c.
Proof.
  rewrite deref_app. destruct (deref root r) as [e|]; simpl; [|done].
  by destruct (dict_get (dict e) c).
Qed.

Lemma update_app root r1 r2 f :
  update root (r1 ++ r2) f = update root r1 (λ e, update e r2 f).
Proof.
  revert root. induction r1 as [|c r1 IH]; intros root; simpl; [done|].
  destruct (dict_get (dict root) c); [by rewrite IH | done].
Qed.

Lemma update_ext root r f g :
  (∀ e, deref root r = Some e → f e = g e) →
  update root r f = update root r g.
Proof.
  revert root. induction r as [|c r IH]; intros root Hfg; simpl.
  - by apply Hfg.
  - simpl in Hfg. destruct (dict_get (dict root) c); [|done].
    by rewrite (IH _ Hfg).
Qed.

Lemma update_None root r f : deref root r = None → update root r f = root.
Proof.
  revert root. induction r as [|c r IH]; intros root; simpl; [done|].
  destruct (dict_get (dict root) c) as [ch|] eqn:Hc; [|done].
  intros Hr. rewrite (IH _ Hr), dict_set_same by done. by destruct root.
Qed.

Lemma update_id root r f :
  (∀ e, deref root r = Some e → f e = e) → update root r f = root.
Proof.
  revert root. induction r as [|c r IH]; intros root Hf; simpl.
  - by apply Hf.
  - simpl in Hf. destruct (dict_get (dict root) c) as [ch|] eqn:Hc; [|done].
    rewrite (IH _ Hf), dict_set_same by done. by destruct root.
Qed.

Lemma deref_update root r f :
  deref (update root r f) r = f <$> deref root r.
Proof.
  revert root. induction r as [|c r IH]; intros root; simpl; [done|].
  destruct (dict_get (dict root) c) as [ch|] eqn:Hc; simpl.
  - by rewrite dict_get_set_eq, IH.
  - by rewrite Hc.
Qed.

Lemma update_update root r f g :
  update (update root r f) r g = update root r (λ e, g (f e)).
Proof.
  revert root. induction r as [|c r IH]; intros root; simpl; [done|].
  destruct (dict_get (dict root) c) as [ch|] eqn:Hc; simpl.
  - by rewrite dict_get_set_eq, dict_set_set, IH.
  - by rewrite Hc.
Qed.

(** A write at the end of [p ++ rest], seen from [p]. *)
Lemma deref_update_prefix root p rest f :
  deref (update root (p ++ rest) f) p = (λ e, update e rest f) <$> deref root p.
Proof. by rewrite update_app, deref_update. Qed.

(** A write that keeps the dict of the entry is not seen from any
    reference that does not lead to the entry. *)
Lemma deref_update_other root key p f :
  (∀ e, dict (f e) = dict e) → ¬ p `prefix_of` key →
  deref (update root key f) p = deref root p.
Proof.
  intros Hf. revert root p.
  induction key as [|c key IH]; intros root p Hp; simpl.
  - destruct p as [|c' p]; [destruct Hp; apply prefix_nil|].
    simpl. by rewrite Hf.
  - destruct p as [|c' p]; [destruct Hp; apply prefix_nil|].
    destruct (dict_get (dict root) c) as [ch|] eqn:Hc; [|done]. simpl.
    destruct (decide (c = c')) as [<-|Hne].
    + rewrite dict_get_set_eq, Hc. apply IH.
      intros Hpre. apply Hp. by apply prefix_cons.
    + by rewrite dict_get_set_ne.
Qed.
End EntryFacts.

(** ** Paths created by [_find], writes to [value] *)

Section PathFacts.
Context {A : Type} `{EqDecision A} {V : Type}.
Implicit Types (e root ch : _Entry A V) (d : list (A * _Entry A V)).
Implicit Types (r key k prefix : list A) (c : A).
Implicit Types (f g : _Entry A V → _Entry A V).

Lemma deref_new_Entry r :
  default new_Entry (deref (new_Entry (A:=A) (V:=V)) r) = new_Entry.
Proof. by destruct r. Qed.

Lemma value_new_Entry r : deref (new_Entry (A:=A) (V:=V)) r ≫= value = None.
Proof. by destruct r. Qed.

Lemma mkpath_deref root key :
  deref (mkpath root key) key = Some (default new_Entry (deref root key)).
Proof.
  revert root. induction key as [|c key IH]; intros root; simpl; [done|].
  rewrite dict_get_set_eq, IH.
  destruct (dict_get (dict root) c); simpl; [done|].
  by rewrite deref_new_Entry.
Qed.

Lemma mkpath_existing root key :
  is_Some (deref root key) → mkpath root key = root.
Proof.
  revert root. induction key as [|c key IH]; intros root; simpl; [done|].
  destruct (dict_get (dict root) c) as [ch|] eqn:Hc; simpl.
  - intros Hk. rewrite (IH _ Hk), dict_set_same by done. by destruct root.
  - by intros [? ?].
Qed.

(** Creating the path of [key] maps no key to a value and unmaps none. *)
Lemma mkpath_value root key k :
  deref (mkpath root key) k ≫= value = deref root k ≫= value.
Proof.
  revert root k. induction key as [|c key IH]; intros root k; [done|].
  destruct k as [|c' k]; [done|]. simpl.
  destruct (decide (c = c')) as [<-|Hne].
  - rewrite dict_get_set_eq, IH.
    destruct (dict_get (dict root) c); simpl; [done|].
    apply value_new_Entry.
  - by rewrite dict_get_set_ne.
Qed.

Lemma mkpath_count root key :
  count_values (mkpath root key) = count_values root.
Proof.
  revert root. induction key as [|c key IH]; intros [v d]; [done|].
  simpl mkpath. rewrite !count_values_eq.
  pose proof (sum_dict_set count_values d c
    (mkpath (default new_Entry (dict_get d c)) key)) as Hsum.
  rewrite IH in Hsum.
  destruct (dict_get d c) as [ch|]; simpl in Hsum; simpl default; lia.
Qed.

Lemma wf_new_Entry : wf (new_Entry (A:=A) (V:=V)).
Proof. apply wf_eq. split; [apply NoDup_nil_2 | constructor]. Qed.

Lemma wf_child d c ch :
  Forall (λ p, wf p.2) d → dict_get d c = Some ch → wf ch.
Proof.
  intros Hd Hc%dict_get_elem_of.
  by apply (proj1 (Forall_forall _ _) Hd (c, ch)).
Qed.

Lemma wf_deref root r e : wf root → deref root r = Some e → wf e.
Proof.
  revert root. induction r as [|c r IH]; intros [v d]; cbn [deref dict].
  - by intros ? [= <-].
  - intros [_ Hd]%wf_eq. destruct (dict_get d c) as [ch|] eqn:Hc; [|done].
    apply IH. by eapply wf_child.
Qed.

Lemma mkpath_wf root key : wf root → wf (mkpath root key).
Proof.
  revert root. induction key as [|c key IH]; intros [v d]; [done|].
  simpl mkpath. rewrite !wf_eq. intros [Hnd Hd]. split.
  - by apply NoDup_dict_set.
  - apply Forall_dict_set; [done|]. apply IH.
    destruct (dict_get d c) as [ch|] eqn:Hc; simpl.
    + by eapply wf_child.
    + apply wf_new_Entry.
Qed.

(** A write that keeps the dict changes the value of one key. *)
Lemma update_value root key k f :
  (∀ e, dict (f e) = dict e) →
  deref (update root key f) k ≫= value
  = if decide (k = key) then deref root key ≫= λ e, value (f e)
    else deref root k ≫= value.
Proof.
  intros Hf. destruct (decide (k = key)) as [->|Hne].
  - rewrite deref_update. by destruct (deref root key).
  - destruct (decide (k `prefix_of` key)) as [[rest ->]|Hpre].
    + rewrite deref_update_prefix.
      destruct (deref root k) as [e|]; simpl; [|done].
      destruct rest as [|c rest]; [by rewrite app_nil_r in Hne|].
      simpl. by destruct (dict_get (dict e) c).
    + by rewrite deref_update_other.
Qed.

Lemma update_count root key f e :
  deref root key = Some e →
  (count_values (update root key f) + count_values e
   = count_values root + count_values (f e))%nat.
Proof.
  revert root. induction key as [|c key IH]; intros [v d];
    cbn [update deref dict value].
  - intros [= <-]. lia.
  - destruct (dict_get d c) as [ch|] eqn:Hc; [|done]. intros He.
    rewrite !count_values_eq.
    pose proof (sum_dict_set count_values d c (update ch key f)) as Hsum.
    rewrite Hc in Hsum. cbn [from_option] in Hsum.
    specialize (IH _ He). cbn [value dict]. lia.
Qed.

Lemma update_wf root key f :
  wf root → (∀ e, deref root key = Some e → wf e → wf (f e)) →
  wf (update root key f).
Proof.
  revert root. induction key as [|c key IH]; intros [v d];
    cbn [update deref dict value].
  - intros Hwf Hf. by apply Hf.
  - destruct (dict_get d c) as [ch|] eqn:Hc; [|done].
    rewrite !wf_eq. intros [Hnd Hd] Hf. split.
    + by apply NoDup_dict_set.
    + apply Forall_dict_set; [done|]. apply IH; [|done].
      by eapply wf_child.
Qed.

Lemma with_value_wf (x : V) e : wf e → wf (with_value x e).
Proof. by destruct e. Qed.

Lemma without_value_wf e : wf e → wf (without_value e).
Proof. by destruct e. Qed.
End PathFacts.

(** ** The methods, computed *)

Section MethodFacts.
Context {A : Type} `{EqDecision A} {V : Type}.
Implicit Types (s : Trie A V) (e root ch : _Entry A V).
Implicit Types (entry r key k rest : list A) (c : A).

Lemma bind_eq {T U} (m : M T) (f : T → M U) s :
  (m ≫= f) s
  = match m s with
    | (Ok x, s') => f x s'
    | (Raise err, s') => (Raise err, s')
    end.
Proof. done. Qed.

Lemma read_eq entry s e :
  deref (_root s) entry = Some e → read entry s = (Ok e, s).
Proof. unfold read. by intros ->. Qed.

Lemma has_value_eq entry s e :
  deref (_root s) entry = Some e →
  has_value entry s
  = (Ok (match value e with Some _ => true | None => false end), s).
Proof. intros He. unfold has_value. by rewrite bind_eq, (read_eq _ _ e). Qed.

Lemma update_single e c (g : _Entry A V → _Entry A V) :
  update e [c] g
  = match dict_get (dict e) c with
    | Some ch => mk_Entry (value e) (dict_set (dict e) c (g ch))
    | None => e
    end.
Proof. done. Qed.

Lemma mk_Trie_eta s : mk_Trie (_root s) (_length s) = s.
Proof. by destruct s. Qed.

(** The loop of [_find] without creation reads the tree only. *)
Lemma _find_loop_false key rest entry s e :
  deref (_root s) entry = Some e →
  _find_loop key false rest entry s
  = (match deref e rest with
     | Some _ => Ok (entry ++ rest)
     | None => Raise (KeyError key)
     end, s).
Proof.
  revert entry e. induction rest as [|c rest IH]; intros entry e He; simpl.
  - by rewrite app_nil_r.
  - rewrite bind_eq. unfold contains. rewrite bind_eq, (read_eq _ _ e) by done.
    simpl. destruct (dict_get (dict e) c) as [ch|] eqn:Hc; [|done].
    rewrite bind_eq. unfold getitem.
    rewrite bind_eq, (read_eq _ _ e) by done. rewrite Hc. simpl.
    rewrite (IH _ ch); [by rewrite <-app_assoc|].
    by rewrite deref_snoc, He.
Qed.

(** With creation, it leaves the tree of [mkpath] and never raises. *)
Lemma _find_loop_true key rest entry s e :
  deref (_root s) entry = Some e →
  _find_loop key true rest entry s
  = (Ok (entry ++ rest),
     mk_Trie (update (_root s) entry (λ e, mkpath e rest)) (_length s)).
Proof.
  revert entry e s. induction rest as [|c rest IH]; intros entry e s He; simpl.
  - rewrite app_nil_r, update_id by done. by rewrite mk_Trie_eta.
  - rewrite bind_eq. unfold contains. rewrite bind_eq, (read_eq _ _ e) by done.
    simpl. destruct (dict_get (dict e) c) as [ch|] eqn:Hc.
    + rewrite bind_eq. unfold getitem.
      rewrite bind_eq, (read_eq _ _ e) by done. rewrite Hc. simpl.
      rewrite (IH _ ch) by (by rewrite deref_snoc, He).
      rewrite <-app_assoc, update_app. simpl. do 2 f_equal.
      apply update_ext. intros e' He'. rewrite He in He'.
      injection He' as <-. by rewrite Hc.
    + rewrite bind_eq. unfold setitem_new, write. rewrite bind_eq. simpl.
      rewrite (IH _ new_Entry).
      * simpl. rewrite <-app_assoc, update_app, update_update. simpl.
        do 2 f_equal. apply update_ext. intros e' He'. rewrite He in He'.
        injection He' as <-. simpl.
        by rewrite dict_get_set_eq, dict_set_set, Hc.
      * simpl. rewrite deref_snoc, deref_update, He. simpl.
        by rewrite dict_get_set_eq.
Qed.

Lemma _find_false key s :
  _find key false s
  = (match deref (_root s) key with
     | Some _ => Ok key
     | None => Raise (KeyError key)
     end, s).
Proof. unfold _find. rewrite bind_eq. simpl. by rewrite (_find_loop_false _ _ _ _ (_root s)). Qed.

Lemma _find_true key s :
  _find key true s = (Ok key, mk_Trie (mkpath (_root s) key) (_length s)).
Proof. unfold _find. rewrite bind_eq. simpl. by rewrite (_find_loop_true _ _ _ _ (_root s)). Qed.

Lemma value_default_deref root key :
  value (default new_Entry (deref root key)) = deref root key ≫= value.
Proof. by destruct (deref root key). Qed.

(** [self[key]] *)
Lemma getitem_eq key s :
  __getitem__ key s
  = (match mapped s key with
     | Some v => Ok v
     | None => Raise (KeyError key)
     end, s).
Proof.
  unfold __getitem__, mapped. rewrite bind_eq, _find_false.
  destruct (deref (_root s) key) as [e|] eqn:He; simpl; [|done].
  rewrite bind_eq, (has_value_eq _ _ e) by done.
  unfold getattr_value. destruct (value e) as [v|] eqn:Hv; [|done].
  rewrite bind_eq, (read_eq _ _ e) by done. by rewrite Hv.
Qed.

(** [key in self] *)
Lemma contains_eq key s :
  __contains__ key s
  = (Ok (match mapped s key with Some _ => true | None => false end), s).
Proof.
  unfold __contains__, try_except_KeyError. rewrite bind_eq, getitem_eq.
  by destruct (mapped s key).
Qed.

(** [entry = self._find(key, create=True); self._set_entry(entry, v)] *)
Lemma _set_entry_eq key v s e :
  deref (_root s) key = Some e →
  _set_entry key v s
  = (Ok (),
     mk_Trie (update (_root s) key (with_value v))
       (match value e with Some _ => _length s | None => _length s + 1 end)).
Proof.
  intros He. unfold _set_entry. rewrite bind_eq, (has_value_eq _ _ e) by done.
  rewrite bind_eq. by destruct (value e).
Qed.

(** [self[key] = v] *)
Lemma setitem_eq key v s :
  __setitem__ key v s
  = (Ok (),
     mk_Trie (update (mkpath (_root s) key) key (with_value v))
       (match mapped s key with
        | Some _ => _length s
        | None => _length s + 1
        end)).
Proof.
  unfold __setitem__. rewrite bind_eq, _find_true.
  erewrite _set_entry_eq by apply mkpath_deref.
  simpl. by rewrite value_default_deref.
Qed.

(** [del self[key]] *)
Lemma delitem_eq key s :
  __delitem__ key s
  = match mapped s key with
    | Some _ =>
        (Ok (), mk_Trie (update (_root s) key without_value) (_length s - 1))
    | None => (Raise (KeyError key), s)
    end.
Proof.
  unfold __delitem__, mapped. rewrite bind_eq, _find_false.
  destruct (deref (_root s) key) as [e|] eqn:He; simpl; [|done].
  rewrite bind_eq, (has_value_eq _ _ e) by done.
  destruct (value e) as [v|] eqn:Hv; [|done].
  rewrite bind_eq. unfold delattr_value.
  rewrite bind_eq, (read_eq _ _ e) by done. by rewrite Hv.
Qed.

(** [self.transform(key, value_selector, default)] *)
Lemma transform_eq key (value_selector : V → result A V) (dflt : V) s :
  transform key value_selector dflt s
  = match value_selector (default dflt (mapped s key)) with
    | Ok v =>
        (Ok (),
         mk_Trie (update (mkpath (_root s) key) key (with_value v))
           (match mapped s key with
            | Some _ => _length s
            | None => _length s + 1
            end))
    | Raise err => (Raise err, mk_Trie (mkpath (_root s) key) (_length s))
    end.
Proof.
  unfold transform. rewrite bind_eq, _find_true.
  pose proof (mkpath_deref (_root s) key) as He.
  set (s1 := mk_Trie (mkpath (_root s) key) (_length s)) in *.
  rewrite bind_eq, (has_value_eq key s1 _ He), value_default_deref.
  assert (mapped s key = deref (_root s) key ≫= value) as -> by done.
  rewrite bind_eq.
  destruct (deref (_root s) key ≫= value) as [v0|] eqn:Hv; simpl default.
  - unfold getattr_value at 1. rewrite bind_eq, (read_eq key s1 _ He).
    cbn beta iota. rewrite value_default_deref, Hv. cbn beta iota.
    unfold mret at 1, M_ret at 1. rewrite bind_eq. unfold call.
    destruct (value_selector v0) as [v|err]; [|done]. cbn beta iota.
    pose proof (_set_entry_eq key v s1 _ He) as Hset.
    rewrite value_default_deref, Hv in Hset. exact Hset.
  - simpl. unfold call.
    destruct (value_selector dflt) as [v|err]; [|done]. cbn beta iota.
    pose proof (_set_entry_eq key v s1 _ He) as Hset.
    rewrite value_default_deref, Hv in Hset. exact Hset.
Qed.

(** *** The mapping after a write *)

Lemma mapped_mkpath root key n k :
  mapped (mk_Trie (mkpath root key) n) k = deref root k ≫= value.
Proof. apply mkpath_value. Qed.

Lemma mapped_with_value root key n v k :
  mapped (mk_Trie (update (mkpath root key) key (with_value v)) n) k
  = if decide (k = key) then Some v else deref root k ≫= value.
Proof.
  unfold mapped. simpl. rewrite update_value by done.
  destruct (decide (k = key)).
  - by rewrite mkpath_deref.
  - apply mkpath_value.
Qed.

Lemma mapped_without_value root key n k :
  mapped (mk_Trie (update root key without_value) n) k
  = if decide (k = key) then None else deref root k ≫= value.
Proof.
  unfold mapped. simpl. rewrite update_value by done.
  destruct (decide (k = key)); [|done]. by destruct (deref root key).
Qed.

(** *** The invariant after a write *)

Lemma Inv_mkpath s key : Inv s → Inv (mk_Trie (mkpath (_root s) key) (_length s)).
Proof.
  intros [Hwf Hlen]. split; simpl.
  - by apply mkpath_wf.
  - by rewrite mkpath_count.
Qed.

Lemma Inv_with_value s key v :
  Inv s →
  Inv (mk_Trie (update (mkpath (_root s) key) key (with_value v))
         (match mapped s key with
          | Some _ => _length s
          | None => _length s + 1
          end)).
Proof.
  intros [Hwf Hlen]. split; simpl.
  - apply update_wf; [by apply mkpath_wf|]. intros. by apply with_value_wf.
  - pose proof (update_count (mkpath (_root s) key) key (with_value v) _
      (mkpath_deref _ _)) as Hcount.
    rewrite mkpath_count in Hcount. unfold mapped.
    rewrite <-value_default_deref.
    destruct (default new_Entry (deref (_root s) key)) as [x d].
    unfold with_value in *. rewrite !count_values_eq in Hcount.
    simpl in *. destruct x; lia.
Qed.

Lemma Inv_without_value s key v :
  Inv s → mapped s key = Some v →
  Inv (mk_Trie (update (_root s) key without_value) (_length s - 1)).
Proof.
  intros [Hwf Hlen] Hv. unfold mapped in Hv.
  destruct (deref (_root s) key) as [[x d]|] eqn:He; [|done].
  simpl in Hv. subst x. split; simpl.
  - apply update_wf; [done|]. intros. by apply without_value_wf.
  - pose proof (update_count _ _ without_value _ He) as Hcount.
    unfold without_value in *. rewrite !count_values_eq in Hcount.
    simpl in *. lia.
Qed.
End MethodFacts.

(** ** The order of the walk *)

Section ListFacts.
Context {T U : Type}.

Lemma filter_all (P : T → Prop) `{∀ x, Decision (P x)} (l : list T) :
  Forall P l → filter P l = l.
Proof.
  induction 1 as [|x l Hx Hl IH]; [done|].
  by rewrite filter_cons_True, IH.
Qed.

Lemma filter_bind (P : U → Prop) `{∀ x, Decision (P x)}
    (f : T → list U) (l : list T) :
  filter P (l ≫= f) = l ≫= λ x, filter P (f x).
Proof.
  induction l as [|x l IH]; [done|].
  by rewrite !bind_cons, filter_app, IH.
Qed.

Lemma fmap_bind {W} (g : U → W) (f : T → list U) (l : list T) :
  g <$> (l ≫= f) = l ≫= λ x, g <$> f x.
Proof.
  induction l as [|x l IH]; [done|].
  by rewrite !bind_cons, fmap_app, IH.
Qed.

Lemma length_bind (f : T → list U) (l : list T) :
  length (l ≫= f) = sum_list_with (λ x, length (f x)) l.
Proof.
  induction l as [|x l IH]; [done|].
  by rewrite bind_cons, length_app, IH.
Qed.

Lemma sum_list_with_ext (f g : T → nat) (l : list T) :
  Forall (λ x, f x = g x) l → sum_list_with f l = sum_list_with g l.
Proof.
  induction 1 as [|x l Hx Hl IH]; [done|].
  cbn [sum_list_with]. by rewrite Hx, IH.
Qed.

Lemma sum_list_with_fmap (f : U → nat) (g : T → U) (l : list T) :
  sum_list_with f (g <$> l) = sum_list_with (λ x, f (g x)) l.
Proof.
  induction l as [|x l IH]; [done|].
  rewrite fmap_cons. cbn [sum_list_with]. by rewrite IH.
Qed.

Lemma foldl_push (f : U → T) (l : list T) (us : list U) :
  foldl (λ st u, st ++ [f u]) l us = l ++ (f <$> us).
Proof.
  revert l. induction us as [|u us IH]; intros l; simpl.
  - by rewrite app_nil_r.
  - by rewrite IH, <-app_assoc.
Qed.

Lemma elem_of_reverse_1 (x : T) (l : list T) : x ∈ reverse l → x ∈ l.
Proof. apply elem_of_reverse. Qed.

Lemma py_pop_nil : py_pop (@nil T) = None.
Proof. done. Qed.

Lemma py_pop_snoc (l : list T) (x : T) : py_pop (l ++ [x]) = Some (l, x).
Proof. unfold py_pop. by rewrite reverse_snoc, reverse_involutive. Qed.
End ListFacts.

Section WalkFacts.
Context {A : Type} `{EqDecision A} {V : Type}.
Implicit Types (e root ch : _Entry A V) (d : list (A * _Entry A V)).
Implicit Types (r key k prefix suffix : list A) (c : A) (x : V).

Lemma dfs_length prefix e : length (dfs prefix e) = count_values e.
Proof.
  revert prefix. induction e as [v d IH] using _Entry_ind. intros prefix.
  rewrite dfs_eq, count_values_eq, length_app, length_bind.
  rewrite sum_list_with_reverse. f_equal; [by destruct v|].
  apply sum_list_with_ext. eapply Forall_impl; [exact IH|].
  intros [c ch] Hch. apply Hch.
Qed.

(** Every key of the walk from [prefix] starts with [prefix]. *)
Lemma dfs_prefix prefix e k x : (k, x) ∈ dfs prefix e → prefix `prefix_of` k.
Proof.
  revert prefix. induction e as [v d IH] using _Entry_ind. intros prefix.
  rewrite dfs_eq, elem_of_app, list_elem_of_bind.
  intros [Hown|([c ch] & Hin & Hd%elem_of_reverse_1)].
  - destruct v; [|by apply elem_of_nil in Hown].
    by apply list_elem_of_singleton in Hown as [= -> _].
  - pose proof (proj1 (Forall_forall _ _) IH _ Hd) as IHch.
    apply IHch in Hin. simpl in Hin.
    etrans; [|exact Hin]. by apply prefix_app_r.
Qed.

(** The walk yields the keys that are mapped to a value below [e]. *)
Lemma elem_of_dfs prefix e k x :
  wf e →
  (k, x) ∈ dfs prefix e
  ↔ ∃ suffix, k = prefix ++ suffix ∧ deref e suffix ≫= value = Some x.
Proof.
  revert prefix k. induction e as [v d IH] using _Entry_ind.
  intros prefix k [Hnd Hwf]%wf_eq.
  rewrite dfs_eq, elem_of_app, list_elem_of_bind. split.
  - intros [Hown|([c ch] & Hin & Hd%elem_of_reverse_1)].
    + destruct v; [|by apply elem_of_nil in Hown].
      apply list_elem_of_singleton in Hown as [= -> ->].
      exists []. by rewrite app_nil_r.
    + pose proof (proj1 (Forall_forall _ _) IH _ Hd) as IHch.
      pose proof (proj1 (Forall_forall _ _) Hwf _ Hd) as Hwfch.
      apply IHch in Hin as (suffix & -> & Hv); [|done].
      exists (c :: suffix). split; [by rewrite <-app_assoc|].
      simpl. by rewrite (dict_get_NoDup d c ch).
  - intros ([|c suffix] & -> & Hv); simpl in Hv.
    + left. subst v. rewrite app_nil_r. by apply list_elem_of_singleton.
    + right. destruct (dict_get d c) as [ch|] eqn:Hc; [|done].
      apply dict_get_elem_of in Hc. exists (c, ch).
      split; [|by apply elem_of_reverse_2].
      pose proof (proj1 (Forall_forall _ _) IH _ Hc) as IHch.
      pose proof (proj1 (Forall_forall _ _) Hwf _ Hc) as Hwfch.
      apply IHch; [done|]. exists suffix. by rewrite <-app_assoc.
Qed.

(** No key comes twice. *)
Lemma dfs_NoDup prefix e : wf e → NoDup (dfs prefix e).*1.
Proof.
  revert prefix. induction e as [v d IH] using _Entry_ind.
  intros prefix [Hnd Hwf]%wf_eq.
  rewrite dfs_eq, fmap_app, fmap_bind. apply NoDup_app. split_and!.
  - destruct v; [apply NoDup_singleton | apply NoDup_nil_2].
  - intros k Hk ([c ch] & Hin & _)%list_elem_of_bind.
    destruct v; [|by apply elem_of_nil in Hk].
    apply list_elem_of_singleton in Hk. simpl in Hk. subst k.
    apply list_elem_of_fmap in Hin as ([k x] & Hk & Hin%dfs_prefix).
    simpl in Hk. subst k. by apply prefix_snoc_not in Hin.
  - apply NoDup_bind.
    + intros [c1 ch1] [c2 ch2] k H1%elem_of_reverse_1 H2%elem_of_reverse_1.
      intros ([k1 x1] & Hk & Hk1%dfs_prefix)%list_elem_of_fmap.
      simpl in Hk. subst k1.
      intros ([k2 x2] & Hk & Hk2%dfs_prefix)%list_elem_of_fmap.
      simpl in Hk. subst k2.
      destruct Hk1 as [s1 ->], Hk2 as [s2 Heq].
      rewrite <-!app_assoc in Heq. apply app_inv_head in Heq.
      injection Heq as <- _.
      pose proof (dict_get_NoDup d c1 ch1 Hnd H1) as Hg1.
      pose proof (dict_get_NoDup d c1 ch2 Hnd H2) as Hg2.
      congruence.
    + intros [c ch] Hd%elem_of_reverse_1.
      apply (proj1 (Forall_forall _ _) IH _ Hd).
      apply (proj1 (Forall_forall _ _) Hwf _ Hd).
    + rewrite reverse_Permutation. by apply NoDup_fmap_1 in Hnd.
Qed.

Lemma dfs_filter_other prefix e k :
  ¬ prefix `prefix_of` k →
  filter (λ p, p.1 ≠ k) (dfs prefix e) = dfs prefix e.
Proof.
  intros Hk. apply filter_all, Forall_forall. intros [k' x] Hin%dfs_prefix.
  simpl. by intros ->.
Qed.

(** Removing the value of [key] removes its pair from the walk and
    leaves every other pair at its place. *)
Lemma dfs_without_value prefix root key :
  wf root → is_Some (deref root key) →
  dfs prefix (update root key without_value)
  = filter (λ p, p.1 ≠ prefix ++ key) (dfs prefix root).
Proof.
  revert root prefix. induction key as [|c key IH];
    intros [v d] prefix Hwf Hkey; cbn [update deref dict value] in *.
  - unfold without_value. cbn [dict]. rewrite !dfs_eq, filter_app, app_nil_r.
    assert (filter (λ p, p.1 ≠ prefix)
              match v with Some x => [(prefix, x)] | None => [] end
            = []) as ->.
    { destruct v; [|done]. by rewrite filter_cons_False by (by intros ?). }
    simpl. rewrite filter_bind. apply Forall_bind_ext, Forall_forall.
    intros [c ch] _. symmetry. apply dfs_filter_other, prefix_snoc_not.
  - destruct (dict_get d c) as [ch|] eqn:Hc; [|by destruct Hkey].
    apply wf_eq in Hwf as [Hnd Hwf].
    rewrite !dfs_eq, filter_app, dict_set_fmap by (by rewrite ?Hc).
    f_equal.
    + apply eq_sym, filter_all. destruct v; repeat constructor.
      simpl. intros Heq. symmetry in Heq.
      rewrite <-(app_nil_r prefix) in Heq at 2.
      by apply app_inv_head in Heq.
    + rewrite <-fmap_reverse, list_fmap_bind, filter_bind.
      apply Forall_bind_ext, Forall_forall.
      intros [c' ch'] Hin%elem_of_reverse_1. simpl.
      destruct (decide (c' = c)) as [->|Hne]; simpl.
      * pose proof (dict_get_NoDup d c ch' Hnd Hin) as Hch'.
        rewrite Hc in Hch'. injection Hch' as <-.
        rewrite IH by (done || by eapply wf_child).
        by rewrite <-app_assoc.
      * symmetry. apply dfs_filter_other.
        intros [rest Hrest]. rewrite <-!app_assoc in Hrest.
        apply app_inv_head in Hrest. simpl in Hrest. congruence.
Qed.
End WalkFacts.

(** ** The generators, computed *)

Section GeneratorFacts.
Context {A : Type} `{EqDecision A} {V : Type}.
Implicit Types (s : Trie A V) (e root ch : _Entry A V).
Implicit Types (entry r key k prefix cp : list A) (c : A).
Implicit Types (stack : list (list A * Ref A)) (g : frame A).

Lemma size_deref root r e : deref root r = Some e → (size e ≤ size root)%nat.
Proof.
  revert root. induction r as [|c r IH]; intros [v d]; cbn [deref dict].
  - by intros [= <-].
  - destruct (dict_get d c) as [ch|] eqn:Hc; [|done].
    intros He%IH. rewrite size_eq.
    apply dict_get_elem_of in Hc.
    pose proof (sum_list_with_in _ (λ p : A * _Entry A V, size p.2) _ Hc).
    simpl in *. lia.
Qed.

Lemma weight_app root stack1 stack2 :
  weight root (stack1 ++ stack2)
  = (weight root stack1 + weight root stack2)%nat.
Proof. apply sum_list_with_app. Qed.

Lemma pending_app root stack1 stack2 :
  pending root (stack1 ++ stack2)
  = pending root stack2 ++ pending root stack1.
Proof. unfold pending. by rewrite reverse_app, bind_app. Qed.

Lemma pending_singleton root cp entry e :
  deref root entry = Some e → pending root [(cp, entry)] = dfs cp e.
Proof.
  intros He. unfold pending. rewrite reverse_singleton, bind_singleton.
  simpl. by rewrite He.
Qed.

(** The children of an entry, seen through their references. *)
Lemma deref_kid root entry e c ch :
  NoDup (dict e).*1 → deref root entry = Some e → (c, ch) ∈ dict e →
  deref root (entry ++ [c]) = Some ch.
Proof.
  intros Hnd He Hin. rewrite deref_snoc, He. simpl.
  by apply dict_get_NoDup.
Qed.

Lemma kids_weight root cp entry e :
  wf e → deref root entry = Some e →
  S (weight root (kids cp entry e)) = size e.
Proof.
  intros Hwf He. destruct e as [v d]. apply wf_eq in Hwf as [Hnd _].
  rewrite size_eq. f_equal. unfold weight, kids.
  rewrite sum_list_with_fmap. apply sum_list_with_ext, Forall_forall.
  intros [c ch] Hin. simpl. by rewrite (deref_kid root entry (mk_Entry v d) c ch).
Qed.

Lemma kids_pending root cp entry e :
  wf e → deref root entry = Some e →
  pending root (kids cp entry e)
  = reverse (dict e) ≫= λ p, dfs (cp ++ [p.1]) p.2.
Proof.
  intros Hwf He. destruct e as [v d]. apply wf_eq in Hwf as [Hnd _].
  unfold pending, kids. rewrite <-fmap_reverse, list_fmap_bind.
  apply Forall_bind_ext, Forall_forall.
  intros [c ch] Hin%elem_of_reverse_1. simpl.
  by rewrite (deref_kid root entry (mk_Entry v d) c ch).
Qed.

Lemma kids_ok root cp entry e :
  wf e → deref root entry = Some e → stack_ok root (kids cp entry e).
Proof.
  intros Hwf He. destruct e as [v d]. apply wf_eq in Hwf as [Hnd _].
  apply Forall_fmap, Forall_forall. intros [c ch] Hin. simpl.
  by rewrite (deref_kid root entry (mk_Entry v d) c ch).
Qed.

Lemma dfs_kids root cp entry e :
  wf e → deref root entry = Some e →
  dfs cp e
  = match value e with Some x => [(cp, x)] | None => [] end
    ++ pending root (kids cp entry e).
Proof.
  intros Hwf He. rewrite kids_pending by done. destruct e. apply dfs_eq.
Qed.

Lemma items_for_eq stack cp entry s e :
  deref (_root s) entry = Some e →
  items_for stack cp entry s = (Ok (stack ++ kids cp entry e), s).
Proof.
  intros He. unfold items_for, entry_items.
  rewrite !bind_eq, (read_eq _ _ e) by done. cbn beta iota.
  unfold mret, M_ret. do 2 f_equal.
  rewrite (foldl_push (λ p : A * Ref A, (cp ++ [p.1], p.2))).
  f_equal. unfold kids. by rewrite <-list_fmap_compose.
Qed.

(** The loop, from its test to the next [yield] or to its end. *)
Lemma items_while_spec fuel stack s l :
  wf (_root s) → stack_ok (_root s) stack →
  (weight (_root s) stack < fuel)%nat →
  pending (_root s) stack = l →
  match l with
  | [] => items_while fuel stack s = (Ok (Return, Finished), s)
  | item :: rest =>
      ∃ stack' cp entry,
        items_while fuel stack s
        = (Ok (Yield item, AtYield stack' cp entry), s)
        ∧ frame_ok (_root s) (AtYield stack' cp entry)
        ∧ frame_pending (_root s) (AtYield stack' cp entry) = rest
        ∧ (frame_weight (_root s) (AtYield stack' cp entry)
           ≤ weight (_root s) stack)%nat
  end.
Proof.
  intros Hwf. revert stack l.
  induction fuel as [|fuel IH]; intros stack l Hok Hfuel Hl; [lia|].
  destruct stack as [|top stack _] using rev_ind.
  - subst l. done.
  - destruct top as [cp entry].
    apply Forall_app in Hok as [Hok [[e He] _]%Forall_cons]. simpl in He.
    pose proof (wf_deref _ _ _ Hwf He) as Hwfe.
    rewrite weight_app in Hfuel. unfold weight at 2 in Hfuel.
    simpl in Hfuel. rewrite He in Hfuel. simpl in Hfuel.
    rewrite pending_app, (pending_singleton _ _ _ e) in Hl by done.
    rewrite (dfs_kids (_root s) cp entry) in Hl by done.
    cbn [items_while]. rewrite py_pop_snoc.
    rewrite bind_eq, (has_value_eq _ _ e) by done.
    destruct (value e) as [x|] eqn:Hx.
    + unfold getattr_value. rewrite !bind_eq, (read_eq _ _ e) by done.
      rewrite Hx. subst l. simpl.
      exists stack, cp, entry. split_and!; [done|done|by eexists| |].
      * rewrite He. simpl. by rewrite pending_app.
      * cbn [frame_weight]. rewrite weight_app. unfold weight.
        simpl. rewrite He. simpl. lia.
    + rewrite bind_eq, (items_for_eq _ _ _ _ e) by done.
      pose proof (kids_weight (_root s) cp entry e Hwfe He) as Hkw.
      specialize (IH (stack ++ kids cp entry e) l).
      assert (weight (_root s) (stack ++ kids cp entry e)
              < weight (_root s) (stack ++ [(cp, entry)]))%nat as Hlt.
      { rewrite !weight_app. unfold weight at 4. simpl. rewrite He.
        simpl. lia. }
      destruct l as [|item rest].
      * apply IH.
        -- apply Forall_app. split; [done | by apply kids_ok].
        -- rewrite weight_app. lia.
        -- by rewrite pending_app.
      * destruct IH as (stack' & cp' & entry' & Heq & Hfok & Hpend & Hw).
        -- apply Forall_app. split; [done | by apply kids_ok].
        -- rewrite weight_app. lia.
        -- by rewrite pending_app.
        -- exists stack', cp', entry'. split_and!; [done..|]. lia.
Qed.

(** [next] on a generator whose prefix has no path. *)
Lemma items_next_invalid generator_stop prefix s :
  deref (_root s) prefix = None →
  items_next generator_stop (AtStart prefix) s
  = (Raise (if generator_stop then RuntimeError else StopIteration),
     Finished, s).
Proof.
  intros Hp. unfold items_next, items_resume, try_except_KeyError.
  rewrite bind_eq, _find_false, Hp. done.
Qed.

(** [next] on a generator whose references designate entries. *)
Lemma items_next_spec generator_stop g s :
  wf (_root s) → frame_ok (_root s) g →
  match frame_pending (_root s) g with
  | [] => items_next generator_stop g s = (Raise StopIteration, Finished, s)
  | item :: rest =>
      ∃ g', items_next generator_stop g s = (Ok item, g', s)
            ∧ frame_ok (_root s) g'
            ∧ frame_pending (_root s) g' = rest
            ∧ (frame_weight (_root s) g' < frame_weight (_root s) g)%nat
  end.
Proof.
  intros Hwf Hok. unfold items_next.
  destruct g as [prefix|stack cp entry|]; cbn [frame_ok] in Hok.
  - destruct Hok as [e He]. cbn [frame_pending frame_weight]. rewrite He.
    cbn [from_option]. unfold items_resume, try_except_KeyError.
    rewrite bind_eq, _find_false, He. cbn beta iota.
    unfold run_while. cbn beta.
    match goal with
    | |- context [items_while ?fuel ?stack s] =>
        pose proof (items_while_spec fuel stack s (dfs prefix e) Hwf)
          as Hloop;
        assert (weight (_root s) stack = size e) as Hw
    end.
    { unfold weight. simpl. rewrite He. simpl. lia. }
    destruct (dfs prefix e) as [|item rest] eqn:Hdfs.
    + rewrite Hloop;
        [done| |lia|by rewrite (pending_singleton _ _ _ e)].
      repeat constructor. by eexists.
    + destruct Hloop as (stack' & cp' & entry' & -> & Hfok & Hpend & Hle);
        [|lia|by rewrite (pending_singleton _ _ _ e)|].
      { repeat constructor. by eexists. }
      eexists. split_and!; [done..|].
      pose proof (size_deref _ _ _ He). lia.
  - destruct Hok as [Hok [e He]]. cbn [frame_pending frame_weight].
    rewrite He. cbn [from_option]. unfold items_resume.
    rewrite bind_eq, (items_for_eq _ _ _ _ e) by done. cbn beta iota.
    unfold run_while. cbn beta.
    pose proof (wf_deref _ _ _ Hwf He) as Hwfe.
    pose proof (kids_weight (_root s) cp entry e Hwfe He) as Hkw.
    match goal with
    | |- context [items_while ?fuel ?stack' s] =>
        pose proof (items_while_spec fuel stack' s
          (pending (_root s) (stack ++ kids cp entry e)) Hwf) as Hloop
    end.
    assert (stack_ok (_root s) (stack ++ kids cp entry e)) as Hok'.
    { apply Forall_app. split; [done | by apply kids_ok]. }
    assert (weight (_root s) (stack ++ kids cp entry e)
            < weight (_root s) ((cp, entry) :: stack))%nat as Hlt.
    { rewrite weight_app. unfold weight at 3. simpl. rewrite He. simpl.
      fold (weight (_root s) stack). lia. }
    destruct (pending (_root s) (stack ++ kids cp entry e)) as [|item rest].
    + rewrite Hloop; [done|done|lia|done].
    + destruct Hloop as (stack' & cp' & entry' & -> & Hfok & Hpend & Hle);
        [done|lia|done|].
      eexists. split_and!; [done..|]. lia.
  - done.
Qed.

(** [list] on the two generators. *)
Lemma items_list_loop generator_stop fuel g acc s :
  wf (_root s) → frame_ok (_root s) g →
  (frame_weight (_root s) g < fuel)%nat →
  py_list_loop fuel (items_next generator_stop) g acc s
  = (Ok (acc ++ frame_pending (_root s) g), s).
Proof.
  intros Hwf. revert g acc.
  induction fuel as [|fuel IH]; intros g acc Hok Hfuel; [lia|].
  pose proof (items_next_spec generator_stop g s Hwf Hok) as Hnext.
  cbn [py_list_loop].
  destruct (frame_pending (_root s) g) as [|item rest].
  - rewrite Hnext. by rewrite app_nil_r.
  - destruct Hnext as (g' & -> & Hok' & <- & Hlt).
    rewrite IH by (done || lia). by rewrite <-app_assoc.
Qed.

Lemma keys_list_loop generator_stop fuel g acc s :
  wf (_root s) → frame_ok (_root s) g →
  (frame_weight (_root s) g < fuel)%nat →
  py_list_loop fuel (keys_next generator_stop) g acc s
  = (Ok (acc ++ (frame_pending (_root s) g).*1), s).
Proof.
  intros Hwf. revert g acc.
  induction fuel as [|fuel IH]; intros g acc Hok Hfuel; [lia|].
  pose proof (items_next_spec generator_stop g s Hwf Hok) as Hnext.
  cbn [py_list_loop]. unfold keys_next.
  destruct (frame_pending (_root s) g) as [|[k x] rest].
  - rewrite Hnext. by rewrite app_nil_r.
  - destruct Hnext as (g' & -> & Hok' & <- & Hlt).
    rewrite IH by (done || lia). by rewrite <-app_assoc.
Qed.

Lemma items_list_eq generator_stop prefix s e :
  wf (_root s) → deref (_root s) prefix = Some e →
  py_list (items_next generator_stop) (items prefix) s
  = (Ok (dfs prefix e), s).
Proof.
  intros Hwf He. unfold py_list.
  rewrite items_list_loop; [|done|by eexists|lia].
  simpl. by rewrite He.
Qed.

Lemma keys_list_eq generator_stop prefix s e :
  wf (_root s) → deref (_root s) prefix = Some e →
  py_list (keys_next generator_stop) (keys prefix) s
  = (Ok (dfs prefix e).*1, s).
Proof.
  intros Hwf He. unfold py_list.
  rewrite keys_list_loop; [|done|by eexists|lia].
  simpl. by rewrite He.
Qed.

Lemma items_list_invalid generator_stop prefix s :
  deref (_root s) prefix = None →
  py_list (items_next generator_stop) (items prefix) s
  = (if generator_stop then Raise RuntimeError else Ok [], s).
Proof.
  intros Hp. unfold py_list. cbn [py_list_loop].
  rewrite items_next_invalid by done. by destruct generator_stop.
Qed.

Lemma keys_list_invalid generator_stop prefix s :
  deref (_root s) prefix = None →
  py_list (keys_next generator_stop) (keys prefix) s
  = (if generator_stop then Raise RuntimeError else Ok [], s).
Proof.
  intros Hp. unfold py_list. cbn [py_list_loop]. unfold keys_next, keys.
  rewrite items_next_invalid by done. by destruct generator_stop.
Qed.

(** *** Enumeration does not write *)

#[local] Abbreviation read_only := (read_only (A:=A) (V:=V)).

Lemma read_only_bind {T U} (m : M (A:=A) (V:=V) T) (f : T → M U) :
  read_only m → (∀ x, read_only (f x)) → read_only (m ≫= f).
Proof.
  intros Hm Hf s. rewrite bind_eq. specialize (Hm s).
  destruct (m s) as [[x|err] s']; simpl in Hm; subst s'; [apply Hf|done].
Qed.

Lemma read_only_read entry : read_only (read entry).
Proof. intros s. unfold read. by destruct (deref (_root s) entry). Qed.

Lemma read_only_has_value entry : read_only (has_value entry).
Proof. apply read_only_bind; [apply read_only_read | done]. Qed.

Lemma read_only_getattr_value entry : read_only (getattr_value entry).
Proof.
  apply read_only_bind; [apply read_only_read|]. intros e s.
  by destruct (value e).
Qed.

Lemma read_only_items_for stack cp entry : read_only (items_for stack cp entry).
Proof.
  apply read_only_bind; [|done].
  apply read_only_bind; [apply read_only_read | done].
Qed.

Lemma read_only_items_while fuel stack : read_only (items_while fuel stack).
Proof.
  revert stack. induction fuel as [|fuel IH]; intros stack; [done|].
  cbn [items_while]. destruct (py_pop stack) as [[stack' [cp entry]]|]; [|done].
  apply read_only_bind; [apply read_only_has_value|]. intros [|].
  - apply read_only_bind; [apply read_only_getattr_value | done].
  - apply read_only_bind; [apply read_only_items_for | intros; apply IH].
Qed.

Lemma read_only_items_resume g : read_only (items_resume g).
Proof.
  destruct g as [prefix|stack cp entry|]; cbn [items_resume]; [| |done].
  - apply read_only_bind.
    + intros s. unfold try_except_KeyError. rewrite _find_false.
      by destruct (deref (_root s) prefix).
    + intros start s. apply read_only_items_while.
  - apply read_only_bind; [apply read_only_items_for|].
    intros stack' s. apply read_only_items_while.
Qed.

Lemma items_next_state generator_stop g s :
  (items_next generator_stop g s).2 = s.
Proof.
  unfold items_next. pose proof (read_only_items_resume g s) as Hs.
  destruct (items_resume g s) as [[[[item|] g']|err] s']; simpl in *;
    [done|done|by destruct err].
Qed.

Lemma keys_next_state generator_stop g s :
  (keys_next generator_stop g s).2 = s.
Proof.
  unfold keys_next. pose proof (items_next_state generator_stop g s) as Hs.
  by destruct (items_next generator_stop g s) as [[[[k x]|err] g'] s'].
Qed.

Lemma py_list_loop_state {Y} fuel
    (next : frame A → Trie A V → result A Y * frame A * Trie A V) g acc :
  (∀ g s, (next g s).2 = s) → read_only (py_list_loop fuel next g acc).
Proof.
  intros Hnext. revert g acc.
  induction fuel as [|fuel IH]; intros g acc s; [done|].
  cbn [py_list_loop]. specialize (Hnext g s).
  destruct (next g s) as [[[y|err] g'] s']; simpl in Hnext; subst s'.
  - apply IH.
  - by destruct err.
Qed.
End GeneratorFacts.


(** ** Enumeration and the mapping *)

Section EnumerationFacts.
Context {A : Type} `{EqDecision A} {V : Type}.
Implicit Types (s : Trie A V) (e root : _Entry A V).
Implicit Types (key k p prefix : list A) (x v : V).

(** The pairs of a walk are the mapped keys that start with its prefix. *)
Lemma elem_of_items s prefix e k v :
  wf (_root s) → deref (_root s) prefix = Some e →
  (k, v) ∈ dfs prefix e ↔ prefix `prefix_of` k ∧ mapped s k = Some v.
Proof.
  intros Hwf He. rewrite elem_of_dfs by exact (wf_deref _ _ _ Hwf He).
  unfold mapped. split.
  - intros (suffix & -> & Hv). split; [by apply prefix_app_r|].
    by rewrite deref_app, He.
  - intros [[suffix ->] Hv]. exists suffix. split; [done|].
    by rewrite deref_app, He in Hv.
Qed.

(** A write to [value] creates no path and removes none. *)
Lemma deref_update_is_Some root key p (f : _Entry A V → _Entry A V) :
  (∀ e, dict (f e) = dict e) →
  is_Some (deref (update root key f) p) ↔ is_Some (deref root p).
Proof.
  intros Hf. destruct (decide (p `prefix_of` key)) as [[rest ->]|Hp].
  - rewrite deref_update_prefix. by rewrite fmap_is_Some.
  - by rewrite deref_update_other.
Qed.

(** The lists of [items] before and after the value of [key] is removed. *)
Lemma items_without_value generator_stop s key n prefix :
  wf (_root s) → is_Some (deref (_root s) key) →
  (py_list (items_next generator_stop) (items prefix)
     (mk_Trie (update (_root s) key without_value) n)).1
  = result_map (filter (λ it, it.1 ≠ key))
      (py_list (items_next generator_stop) (items prefix) s).1.
Proof.
  intros Hwf Hkey.
  assert (wf (update (_root s) key without_value)) as Hwf'.
  { apply update_wf; [done|]. intros. by apply without_value_wf. }
  destruct (deref (_root s) prefix) as [e|] eqn:He.
  - rewrite (items_list_eq _ _ s e) by done. simpl.
    destruct (decide (prefix `prefix_of` key)) as [[rest ->]|Hp].
    + erewrite items_list_eq; [|done|].
      2:{ simpl. by rewrite deref_update_prefix, He. }
      simpl. f_equal. apply dfs_without_value; [exact (wf_deref _ _ _ Hwf He)|].
      by rewrite deref_app, He in Hkey.
    + erewrite items_list_eq; [|done|].
      2:{ simpl. by rewrite deref_update_other. }
      simpl. f_equal. symmetry. by apply dfs_filter_other.
  - rewrite (items_list_invalid _ _ s) by done.
    rewrite items_list_invalid.
    + by destruct generator_stop.
    + simpl. apply eq_None_not_Some.
      rewrite deref_update_is_Some by done. by rewrite He; intros [? ?].
Qed.

Lemma fmap_filter_fst (key : list A) (l : list (list A * V)) :
  (filter (λ it, it.1 ≠ key) l).*1 = filter (λ k, k ≠ key) l.*1.
Proof.
  induction l as [|[k x] l IH]; [done|]. rewrite fmap_cons. simpl.
  destruct (decide (k = key)) as [->|Hne].
  - rewrite !filter_cons_False by (by intros ?). done.
  - rewrite !filter_cons_True by done. by rewrite fmap_cons, IH.
Qed.

Lemma keys_without_value generator_stop s key n prefix :
  wf (_root s) → is_Some (deref (_root s) key) →
  (py_list (keys_next generator_stop) (keys prefix)
     (mk_Trie (update (_root s) key without_value) n)).1
  = result_map (filter (λ k, k ≠ key))
      (py_list (keys_next generator_stop) (keys prefix) s).1.
Proof.
  intros Hwf Hkey.
  assert (wf (update (_root s) key without_value)) as Hwf'.
  { apply update_wf; [done|]. intros. by apply without_value_wf. }
  destruct (deref (_root s) prefix) as [e|] eqn:He.
  - rewrite (keys_list_eq _ _ s e) by done. simpl.
    rewrite <-fmap_filter_fst.
    destruct (decide (prefix `prefix_of` key)) as [[rest ->]|Hp].
    + erewrite keys_list_eq; [|done|].
      2:{ simpl. by rewrite deref_update_prefix, He. }
      simpl. do 2 f_equal. apply dfs_without_value; [exact (wf_deref _ _ _ Hwf He)|].
      by rewrite deref_app, He in Hkey.
    + erewrite keys_list_eq; [|done|].
      2:{ simpl. by rewrite deref_update_other. }
      simpl. do 2 f_equal. symmetry. by apply dfs_filter_other.
  - rewrite (keys_list_invalid _ _ s) by done.
    rewrite keys_list_invalid.
    + by destruct generator_stop.
    + simpl. apply eq_None_not_Some.
      rewrite deref_update_is_Some by done. by rewrite He; intros [? ?].
Qed.

(** [Trie(...)] establishes the invariant. *)
Lemma Inv_update_pairs (pairs : list (list A * V)) s :
  Inv s → (update_pairs pairs s).1 = Ok () ∧ Inv (update_pairs pairs s).2.
Proof.
  revert s. induction pairs as [|[key v] pairs IH]; intros s Hs; [done|].
  cbn [update_pairs]. rewrite bind_eq, setitem_eq.
  apply IH. by apply Inv_with_value.
Qed.

Lemma Inv_new : Inv (mk_Trie (new_Entry (A:=A) (V:=V)) 0).
Proof. split; [apply wf_new_Entry | done]. Qed.

Lemma Inv_init (pairs : list (list A * V)) :
  (__init__ pairs).1 = Ok () ∧ Inv (__init__ pairs).2.
Proof. apply Inv_update_pairs, Inv_new. Qed.
End EnumerationFacts.


(** * The claims of the specification *)

Section Claims.
Context {A : Type} `{EqDecision A} {V : Type}.
Implicit Types (s : Trie A V) (e root : _Entry A V).
Implicit Types (key k p prefix : list A) (x v d : V).

(** Claim C2.  For every trie state, key [k] and value [v], [set(k, v)]
    returns without raising, also for the empty key, whose value goes to the
    slot of the root; right afterwards [get(k)] returns [v] and [contains(k)]
    is true. *)
Theorem C2_set_then_get s k v :
  (∃ s', __setitem__ k v s = (Ok (), s')
         ∧ __getitem__ k s' = (Ok v, s')
         ∧ __contains__ k s' = (Ok true, s'))
  ∧ (∃ s0, __setitem__ [] v s = (Ok (), s0) ∧ value (_root s0) = Some v).
Proof.
  split.
  - eexists. split; [apply setitem_eq|].
    rewrite contains_eq, getitem_eq, mapped_with_value.
    by rewrite decide_True.
  - eexists. split; [apply setitem_eq|]. done.
Qed.

(** Claim C3.  [get(k)] returns the value in the slot of the entry at the
    end of the path of [k] when that path exists and the slot is set; in
    every other case, an existing path whose last entry has no value
    included, it raises [KeyError(k)]; in all cases the tree and the
    counter are left as they were. *)
Theorem C3_get_or_KeyError s k :
  __getitem__ k s
  = (match deref (_root s) k with
     | Some e =>
         match value e with
         | Some v => Ok v
         | None => Raise (KeyError k)
         end
     | None => Raise (KeyError k)
     end, s).
Proof.
  rewrite getitem_eq. unfold mapped.
  by destruct (deref (_root s) k) as [e|].
Qed.

(** Claim C4.  [delete(k)] raises [KeyError(k)] and changes nothing when
    the path of [k] is missing or ends at an entry without value;
    otherwise it removes the value of that entry and nothing else, takes
    one off the counter, and afterwards [contains(k)] is false and [get(k)]
    raises [KeyError(k)]. *)
Theorem C4_delete s k :
  match deref (_root s) k with
  | None => __delitem__ k s = (Raise (KeyError k), s)
  | Some e =>
      match value e with
      | None => __delitem__ k s = (Raise (KeyError k), s)
      | Some _ =>
          ∃ s', __delitem__ k s = (Ok (), s')
                ∧ _root s' = update (_root s) k without_value
                ∧ deref (_root s') k = Some (mk_Entry None (dict e))
                ∧ _length s' = _length s - 1
                ∧ __contains__ k s' = (Ok false, s')
                ∧ __getitem__ k s' = (Raise (KeyError k), s')
      end
  end.
Proof.
  rewrite delitem_eq. unfold mapped.
  destruct (deref (_root s) k) as [e|] eqn:He; simpl; [|done].
  destruct (value e) as [v|] eqn:Hv; [|done].
  eexists. split; [done|]. split_and!; [done| |done| |].
  - simpl. by rewrite deref_update, He.
  - rewrite contains_eq, mapped_without_value. by rewrite decide_True.
  - rewrite getitem_eq, mapped_without_value. by rewrite decide_True.
Qed.

(** Claim C5.  In every state in which the counter equals the number of
    entries with a value (and the dicts have distinct keys), [len()] is
    that number, which is also the number of distinct keys that are mapped
    to a value (the keys for which [contains] is true); the states after
    [set], [delete] and [transform] (whether they return or raise) are
    again such states; [get], [contains] and every step of an enumeration
    leave the state as it is; and setting a key that is already mapped
    leaves [len()] as it is. *)
Theorem C5_len_invariant s :
  Inv s →
  __len__ s = (Ok (Z.of_nat (count_values (_root s))), s)
  ∧ (∃ ks, NoDup ks
           ∧ (∀ k, k ∈ ks ↔ __contains__ k s = (Ok true, s))
           ∧ __len__ s = (Ok (Z.of_nat (length ks)), s))
  ∧ (∀ k v, Inv (__setitem__ k v s).2)
  ∧ (∀ k, Inv (__delitem__ k s).2)
  ∧ (∀ k value_selector d, Inv (transform k value_selector d s).2)
  ∧ (∀ k, (__getitem__ k s).2 = s ∧ (__contains__ k s).2 = s)
  ∧ (∀ generator_stop g,
       (items_next generator_stop g s).2 = s
       ∧ (keys_next generator_stop g s).2 = s)
  ∧ (∀ k v, __contains__ k s = (Ok true, s) →
            __len__ (__setitem__ k v s).2 = (Ok (_length s), (__setitem__ k v s).2)).
Proof.
  intros HInv. pose proof HInv as [Hwf Hlen]. split_and!.
  - unfold __len__, get_length. by rewrite Hlen.
  - exists (dfs [] (_root s)).*1. split_and!.
    + by apply dfs_NoDup.
    + intros k. rewrite contains_eq, list_elem_of_fmap. split.
      * intros ([k' v] & -> & Hin). simpl.
        apply (elem_of_items s [] (_root s)) in Hin as [_ ->]; done.
      * destruct (mapped s k) as [v|] eqn:Hv; [|done]. intros _.
        exists (k, v). split; [done|].
        apply (elem_of_items s [] (_root s)); [done..|].
        split; [apply prefix_nil | done].
    + unfold __len__, get_length. by rewrite length_fmap, dfs_length, Hlen.
  - intros k v. rewrite setitem_eq. by apply Inv_with_value.
  - intros k. rewrite delitem_eq.
    destruct (mapped s k) as [v|] eqn:Hv; [|done].
    by eapply Inv_without_value.
  - intros k f d. rewrite transform_eq.
    destruct (f _) as [v|err]; simpl.
    + by apply Inv_with_value.
    + by apply Inv_mkpath.
  - intros k. by rewrite getitem_eq, contains_eq.
  - intros gs g. split; [apply items_next_state | apply keys_next_state].
  - intros k v. rewrite contains_eq, setitem_eq.
    by destruct (mapped s k).
Qed.

(** Claim C6.  When [updater] returns [v'] on the value that [k] was
    mapped to, or on the default [d] if [k] was not mapped,
    [transform(k, updater, d)] returns, afterwards [get(k)] is [v'], and
    [len()] has grown by one if [k] was not mapped and is unchanged if it
    was. *)
Theorem C6_transform s k (updater : V → result A V) d v' :
  updater (default d (mapped s k)) = Ok v' →
  ∃ s', transform k updater d s = (Ok (), s')
        ∧ __getitem__ k s' = (Ok v', s')
        ∧ __len__ s'
          = (Ok (match mapped s k with
                 | Some _ => _length s
                 | None => _length s + 1
                 end), s').
Proof.
  intros Hupd. rewrite transform_eq, Hupd. eexists. split; [done|].
  split; [|done]. rewrite getitem_eq, mapped_with_value.
  by rewrite decide_True.
Qed.

(** Claim C7.  On a trie whose dicts have distinct keys and for a prefix
    whose path exists, [list(items(prefix))] is the walk [dfs] from the
    entry of the prefix: the pair of an entry comes before the pairs below
    it, and the child that was pushed last is walked first.  No key comes
    twice, and the pairs are exactly those of the mapped keys that begin
    with the prefix.  [keys(prefix)] gives the keys of these pairs in the
    same order. *)
Theorem C7_items_walk generator_stop s prefix start :
  wf (_root s) → deref (_root s) prefix = Some start →
  py_list (items_next generator_stop) (items prefix) s
  = (Ok (dfs prefix start), s)
  ∧ py_list (keys_next generator_stop) (keys prefix) s
    = (Ok (dfs prefix start).*1, s)
  ∧ dfs prefix start
    = match value start with Some x => [(prefix, x)] | None => [] end
      ++ (reverse (dict start) ≫= λ child, dfs (prefix ++ [child.1]) child.2)
  ∧ NoDup (dfs prefix start).*1
  ∧ (∀ k v, (k, v) ∈ dfs prefix start
            ↔ prefix `prefix_of` k ∧ __getitem__ k s = (Ok v, s)).
Proof.
  intros Hwf Hstart. split_and!.
  - by apply items_list_eq.
  - by apply keys_list_eq.
  - destruct start. apply dfs_eq.
  - apply dfs_NoDup. exact (wf_deref _ _ _ Hwf Hstart).
  - intros k v. rewrite (elem_of_items s) by done. rewrite getitem_eq.
    destruct (mapped s k) as [v0|]; split; intros [? Hv]; split;
      congruence.
Qed.

(** Claim C10.  When [updater] raises on the value that [k] was mapped to,
    or on the default [d] if [k] was not mapped, [transform] raises the same
    exception; the counter is what it was, every key has the membership
    and the value that it had, and the only change of the tree is the
    path of [k], whose new entries have no value. *)
Theorem C10_transform_raises s k (updater : V → result A V) d err :
  updater (default d (mapped s k)) = Raise err →
  ∃ s', transform k updater d s = (Raise err, s')
        ∧ __len__ s' = (Ok (_length s), s')
        ∧ (∀ p, __getitem__ p s' = ((__getitem__ p s).1, s')
                ∧ __contains__ p s' = ((__contains__ p s).1, s'))
        ∧ _root s' = mkpath (_root s) k
        ∧ count_values (_root s') = count_values (_root s).
Proof.
  intros Hupd. rewrite transform_eq, Hupd. eexists. split; [done|].
  split_and!; [done| |done|apply mkpath_count].
  intros p. by rewrite !getitem_eq, !contains_eq, mapped_mkpath.
Qed.
End Claims.

Section ValueSlot.
Context {A : Type} `{EqDecision A}.
Implicit Types (k rest : list A) (c : A).

(** Claim C8.  Whatever the value, [None], [0] and the empty string
    included, after [set(k, v)] the key is a member and [get(k)] returns
    [v]; setting a longer key leaves the membership of [k] as it was, and
    on a new trie the entry of [k] that is then on the path has no value:
    [has_value()] is false, [contains(k)] is false and [get(k)] raises
    [KeyError(k)]. *)
Theorem C8_set_value_is_present (s : Trie A Example.PyObj) k c rest :
  Forall (λ v, ∃ s' : Trie A Example.PyObj, __setitem__ k v s = (Ok (), s')
                     ∧ __contains__ k s' = (Ok true, s')
                     ∧ __getitem__ k s' = (Ok v, s'))
    [Example.PyNone; Example.PyInt 0; Example.PyStr EmptyString]
  ∧ (∀ v, ∃ s' : Trie A Example.PyObj, __setitem__ k v s = (Ok (), s')
                ∧ __contains__ k s' = (Ok true, s')
                ∧ __getitem__ k s' = (Ok v, s')
                ∧ has_value k s' = (Ok true, s'))
  ∧ (∀ v, ∃ s' : Trie A Example.PyObj, __setitem__ (k ++ c :: rest) v s = (Ok (), s')
                ∧ is_Some (deref (_root s') k)
                ∧ __contains__ k s' = ((__contains__ k s).1, s'))
  ∧ (∀ v, ∃ s' : Trie A Example.PyObj, __setitem__ (k ++ c :: rest) v (__init__ []).2 = (Ok (), s')
                ∧ is_Some (deref (_root s') k)
                ∧ has_value k s' = (Ok false, s')
                ∧ __contains__ k s' = (Ok false, s')
                ∧ __getitem__ k s' = (Raise (KeyError k), s')).
Proof.
  assert (∀ v, ∃ s' : Trie A Example.PyObj, __setitem__ k v s = (Ok (), s')
                ∧ __contains__ k s' = (Ok true, s')
                ∧ __getitem__ k s' = (Ok v, s')
                ∧ has_value k s' = (Ok true, s')) as Hset.
  { intros v. eexists. split; [apply setitem_eq|].
    rewrite contains_eq, getitem_eq, mapped_with_value.
    rewrite decide_True by done. split_and!; [done..|].
    rewrite (has_value_eq _ _
      (with_value v (default new_Entry (deref (_root s) k)))); [done|].
    simpl. by rewrite deref_update, mkpath_deref. }
  assert (k ≠ k ++ c :: rest) as Hne.
  { intros Heq. rewrite <-(app_nil_r k) in Heq at 1.
    by apply app_inv_head in Heq. }
  assert (∀ (s0 : Trie A Example.PyObj) v,
    is_Some (deref (_root (__setitem__ (k ++ c :: rest) v s0).2) k)) as Hpath.
  { intros s0 v. rewrite setitem_eq. simpl.
    rewrite deref_update_is_Some by done.
    pose proof (mkpath_deref (_root s0) (k ++ c :: rest)) as Hd.
    rewrite deref_app in Hd.
    by destruct (deref (mkpath (_root s0) (k ++ c :: rest)) k). }
  split_and!.
  - repeat constructor;
      match goal with
      | |- ∃ _, __setitem__ _ ?v _ = _ ∧ _ =>
          destruct (Hset v) as (s' & ? & ? & ? & ?); by exists s'
      end.
  - done.
  - intros v. specialize (Hpath s v). rewrite setitem_eq in Hpath |- *.
    eexists. split; [done|]. split; [done|].
    rewrite !contains_eq, mapped_with_value. by rewrite decide_False.
  - intros v. set (s0 := (__init__ (A:=A) (V:=Example.PyObj) []).2).
    specialize (Hpath s0 v). rewrite setitem_eq in Hpath |- *.
    eexists. split; [done|]. split; [done|].
    match goal with
    | |- context [has_value k ?s1] => assert (mapped s1 k = None) as Hnone
    end.
    { rewrite mapped_with_value, decide_False by done. apply value_new_Entry. }
    rewrite contains_eq, getitem_eq, Hnone. split_and!; [|done..].
    cbn [snd _root] in Hpath. destruct Hpath as [e He].
    rewrite (has_value_eq _ _ e) by done.
    unfold mapped in Hnone. cbn [_root] in Hnone.
    rewrite He in Hnone. simpl in Hnone. by rewrite Hnone.
Qed.
End ValueSlot.

(** ** The claims on the trie of the docstring *)

(** Claim C1 (the code does not meet it).  The claim: for a prefix that has
    no path in the tree, [items(prefix)] and [keys(prefix)] give an empty
    sequence and raise nothing.  The code: [_find] raises [KeyError], the
    handler in the body of the generator raises [StopIteration], and a
    [StopIteration] that leaves the body of a generator reaches the caller
    as [RuntimeError] (PEP 479).  On the trie of the docstring, which has no
    key that begins with [xyz], [list(trie.items('xyz'))] and
    [list(trie.keys('xyz'))] raise [RuntimeError]. *)
Theorem C1_unmatched_prefix_raises :
  deref (_root Example.trie) (Example.str "xyz") = None
  ∧ py_list (items_next true) (items (Example.str "xyz")) Example.trie
    = (Raise RuntimeError, Example.trie)
  ∧ py_list (keys_next true) (keys (Example.str "xyz")) Example.trie
    = (Raise RuntimeError, Example.trie).
Proof. by vm_compute. Qed.

(** With the generators of Python 3.6 and before, the same calls give the
    empty list. *)
Lemma unmatched_prefix_before_pep479 :
  py_list (items_next false) (items (Example.str "xyz")) Example.trie
  = (Ok [], Example.trie)
  ∧ py_list (keys_next false) (keys (Example.str "xyz")) Example.trie
    = (Ok [], Example.trie).
Proof. by vm_compute. Qed.

Lemma Example_trie_Inv : Inv Example.trie.
Proof. apply (Inv_init _). Qed.

(** [len(trie)] is 5, and the invariant is that of claim C5. *)
Lemma C5_len_invariant_witness :
  Inv Example.trie ∧ __len__ Example.trie = (Ok 5, Example.trie).
Proof.
  split; [exact Example_trie_Inv|].
  exact (proj1 (C5_len_invariant Example.trie Example_trie_Inv)).
Defined.

(** [trie.transform('today', lambda old: old - 60, default=0)] where
    [today] is 5. *)
Lemma C6_transform_witness :
  Example.minus60
    (default (Example.PyInt 0) (mapped Example.trie (Example.str "today")))
  = Ok (Example.PyInt (-55))
  ∧ ∃ s', transform (Example.str "today") Example.minus60 (Example.PyInt 0)
            Example.trie = (Ok (), s')
          ∧ __getitem__ (Example.str "today") s' = (Ok (Example.PyInt (-55)), s')
          ∧ __len__ s' = (Ok 5, s').
Proof.
  assert (Example.minus60
    (default (Example.PyInt 0) (mapped Example.trie (Example.str "today")))
    = Ok (Example.PyInt (-55))) as Hupd by reflexivity.
  split; [exact Hupd|].
  destruct (C6_transform Example.trie (Example.str "today") Example.minus60
              (Example.PyInt 0) (Example.PyInt (-55)) Hupd)
    as (s' & Hrun & Hget & Hlen).
  exists s'. split; [exact Hrun|]. split; [exact Hget | exact Hlen].
Defined.

(** [trie.keys(prefix='sh')] gives [she] and [shells]. *)
Lemma C7_items_walk_witness :
  wf (_root Example.trie)
  ∧ is_Some (deref (_root Example.trie) (Example.str "sh"))
  ∧ py_list (keys_next true) (keys (Example.str "sh")) Example.trie
    = (Ok [Example.str "she"; Example.str "shells"], Example.trie).
Proof.
  split; [exact (proj1 Example_trie_Inv)|].
  split; [vm_compute; eexists; reflexivity|].
  exact (proj1 (proj2
    (C7_items_walk true Example.trie (Example.str "sh") _
       (proj1 Example_trie_Inv) eq_refl))).
Defined.

(** [trie.transform('tomorrow', lambda old: old + 1)]: the default is
    [None], the function raises [TypeError], and [len(trie)] stays 5. *)
Lemma C10_transform_raises_witness :
  Example.plus1
    (default Example.PyNone (mapped Example.trie (Example.str "tomorrow")))
  = Raise TypeError
  ∧ ∃ s', transform (Example.str "tomorrow") Example.plus1 Example.PyNone
            Example.trie = (Raise TypeError, s')
          ∧ __len__ s' = (Ok 5, s')
          ∧ __contains__ (Example.str "tomorrow") s' = (Ok false, s').
Proof.
  assert (Example.plus1
    (default Example.PyNone (mapped Example.trie (Example.str "tomorrow")))
    = Raise TypeError) as Hupd by reflexivity.
  split; [exact Hupd|].
  destruct (C10_transform_raises Example.trie (Example.str "tomorrow")
    Example.plus1 Example.PyNone TypeError Hupd)
    as (s' & Hrun & Hlen & Hframe & _).
  exists s'. split; [exact Hrun|]. split; [exact Hlen|].
  exact (proj2 (Hframe (Example.str "tomorrow"))).
Defined.


(** * Further properties of the code *)

Section Composition.
Context {A : Type} `{EqDecision A} {V : Type}.
Implicit Types (s : Trie A V) (e root : _Entry A V).
Implicit Types (key k p prefix : list A) (x v : V).
Implicit Types (pairs : list (list A * V)).

Lemma lookup_pairs_is_Some pairs k :
  is_Some (lookup_pairs pairs k) ↔ k ∈ pairs.*1.
Proof.
  induction pairs as [|[k' v] pairs IH].
  - split; [by intros [? ?] | by intros ?%elem_of_nil].
  - rewrite fmap_cons, elem_of_cons, <-IH. simpl.
    destruct (lookup_pairs pairs k) as [x|].
    + split; [intros _; right; by eexists | by eexists].
    + destruct (decide (k = k')) as [->|Hne].
      * split; [by left | by eexists].
      * split; [by intros [? ?] | by intros [?|[? ?]]].
Qed.

(** [MutableMapping.update] with a sequence of pairs. *)
Lemma update_pairs_eq pairs s :
  ∃ s', update_pairs pairs s = (Ok (), s')
        ∧ (∀ k, mapped s' k
                = match lookup_pairs pairs k with
                  | Some x => Some x
                  | None => mapped s k
                  end)
        ∧ (Inv s → Inv s').
Proof.
  revert s. induction pairs as [|[k' v] pairs IH]; intros s.
  - by exists s.
  - cbn [update_pairs]. rewrite bind_eq, setitem_eq.
    destruct (IH (mk_Trie (update (mkpath (_root s) k') k' (with_value v))
      (match mapped s k' with
       | Some _ => _length s
       | None => _length s + 1
       end))) as (s' & -> & Hmap & HInv).
    exists s'. split; [done|]. split.
    + intros k. rewrite Hmap, mapped_with_value. simpl.
      destruct (lookup_pairs pairs k); [done|].
      by destruct (decide (k = k')).
    + intros Hs. by apply HInv, Inv_with_value.
Qed.

(** Under the invariant, the keys of the full walk are the mapped keys,
    each once, and the counter is their number. *)
Lemma walk_keys s :
  Inv s →
  NoDup (dfs [] (_root s)).*1
  ∧ (∀ k, k ∈ (dfs [] (_root s)).*1 ↔ is_Some (mapped s k))
  ∧ _length s = Z.of_nat (length (dfs [] (_root s)).*1).
Proof.
  intros [Hwf Hlen]. split_and!.
  - by apply dfs_NoDup.
  - intros k. rewrite list_elem_of_fmap. split.
    + intros ([k' v] & -> & Hin). simpl.
      apply (elem_of_items s [] (_root s)) in Hin as [_ ->]; done.
    + intros [v Hv]. exists (k, v). split; [done|].
      apply (elem_of_items s [] (_root s)); [done..|].
      split; [apply prefix_nil | done].
  - by rewrite length_fmap, dfs_length.
Qed.

(** [Trie(pairs)] answers [get] and [contains] as [dict(pairs)] does: a
    key has the value of the last pair that names it, and a key that no
    pair names raises [KeyError]. *)
Theorem init_as_dict pairs :
  ∃ s, __init__ pairs = (Ok (), s)
       ∧ ∀ k, __getitem__ k s
              = (match lookup_pairs pairs k with
                 | Some x => Ok x
                 | None => Raise (KeyError k)
                 end, s)
              ∧ __contains__ k s = (Ok (bool_decide (k ∈ pairs.*1)), s).
Proof.
  unfold __init__.
  destruct (update_pairs_eq pairs (mk_Trie new_Entry 0))
    as (s & -> & Hmap & _).
  exists s. split; [done|]. intros k.
  rewrite getitem_eq, contains_eq, Hmap.
  assert (mapped (mk_Trie (new_Entry (A:=A) (V:=V)) 0) k = None) as ->
    by apply value_new_Entry.
  pose proof (lookup_pairs_is_Some pairs k) as Hin.
  destruct (lookup_pairs pairs k) as [x|].
  - split; [done|]. rewrite bool_decide_eq_true_2; [done|].
    apply Hin. by eexists.
  - split; [done|]. rewrite bool_decide_eq_false_2; [done|].
    intros [? ?]%Hin. done.
Qed.

(** After [Trie(pairs)], [len()] is the number of distinct keys among the
    pairs, however often a key is repeated. *)
Theorem init_len pairs :
  ∃ s, __init__ pairs = (Ok (), s)
       ∧ __len__ s = (Ok (Z.of_nat (length (remove_dups pairs.*1))), s).
Proof.
  unfold __init__.
  destruct (update_pairs_eq pairs (mk_Trie new_Entry 0))
    as (s & -> & Hmap & HInv).
  exists s. split; [done|].
  destruct (walk_keys s (HInv Inv_new)) as (Hnd & Hin & Hlen).
  unfold __len__, get_length. rewrite Hlen. do 3 f_equal.
  apply Permutation_length, NoDup_Permutation;
    [done | apply NoDup_remove_dups |].
  intros k. rewrite Hin, elem_of_remove_dups, <-lookup_pairs_is_Some, Hmap.
  assert (mapped (mk_Trie (new_Entry (A:=A) (V:=V)) 0) k = None) as ->
    by apply value_new_Entry.
  by destruct (lookup_pairs pairs k).
Qed.

(** On a new, empty trie [len()] is 0, every [get] and every [delete]
    raises [KeyError], nothing is a member and iterating gives nothing. *)
Theorem empty_trie :
  ∃ s : Trie A V, __init__ [] = (Ok (), s)
    ∧ __len__ s = (Ok 0, s)
    ∧ (∀ k, __getitem__ k s = (Raise (KeyError k), s)
            ∧ __delitem__ k s = (Raise (KeyError k), s)
            ∧ __contains__ k s = (Ok false, s))
    ∧ (∀ generator_stop,
         py_list (keys_next generator_stop) __iter__ s = (Ok [], s)
         ∧ py_list (items_next generator_stop) (items []) s = (Ok [], s)).
Proof.
  exists (mk_Trie new_Entry 0). split; [done|]. split; [done|]. split.
  - intros k. rewrite getitem_eq, delitem_eq, contains_eq.
    assert (mapped (mk_Trie (new_Entry (A:=A) (V:=V)) 0) k = None) as ->
      by apply value_new_Entry.
    done.
  - intros gs. unfold __iter__. split.
    + by rewrite (keys_list_eq _ _ _ new_Entry)
        by (done || apply wf_new_Entry).
    + by rewrite (items_list_eq _ _ _ new_Entry)
        by (done || apply wf_new_Entry).
Qed.

(** [set(k, v)] leaves the membership and the value of every other key
    as they were. *)
Theorem set_frame s k v p :
  p ≠ k →
  ∃ s', __setitem__ k v s = (Ok (), s')
        ∧ __getitem__ p s' = ((__getitem__ p s).1, s')
        ∧ __contains__ p s' = ((__contains__ p s).1, s').
Proof.
  intros Hp. rewrite setitem_eq. eexists. split; [done|].
  rewrite !getitem_eq, !contains_eq, mapped_with_value.
  by rewrite decide_False.
Qed.

(** Setting a key twice leaves the state that the second [set] alone
    would leave: the tree and the counter are the same. *)
Theorem set_overwrite s k v1 v2 :
  __setitem__ k v2 (__setitem__ k v1 s).2 = __setitem__ k v2 s.
Proof.
  rewrite !setitem_eq. cbn [snd]. rewrite mapped_with_value.
  rewrite decide_True by done. cbn [_root _length]. do 2 f_equal.
  rewrite mkpath_existing.
  - rewrite update_update. by apply update_ext.
  - rewrite deref_update, mkpath_deref. by eexists.
Qed.

(** [del trie[k]] followed by [trie[k] = v], where [v] is the value that
    [k] had, gives back the very state from before. *)
Theorem delete_then_set_restores s k v :
  __getitem__ k s = (Ok v, s) →
  ∃ s1, __delitem__ k s = (Ok (), s1) ∧ __setitem__ k v s1 = (Ok (), s).
Proof.
  rewrite getitem_eq, delitem_eq.
  destruct (mapped s k) as [v0|] eqn:Hv; [|done]. intros [= ->].
  eexists. split; [done|]. rewrite setitem_eq, mapped_without_value.
  rewrite decide_True by done. cbn [_root _length].
  unfold mapped in Hv.
  destruct (deref (_root s) k) as [e|] eqn:He; [|done]. simpl in Hv.
  rewrite mkpath_existing by (rewrite deref_update, He; by eexists).
  rewrite update_update, update_id.
  - destruct s as [root n]. simpl. do 2 f_equal. lia.
  - intros e' He'. rewrite He in He'. injection He' as <-.
    destruct e as [x d]. simpl in Hv. by subst x.
Qed.

(** [trie[k] = v] on a key that is not a member, followed by
    [del trie[k]], gives back the mapping and [len()] from before (the
    entries created for the path of [k] stay in the tree). *)
Theorem set_then_delete_restores s k v :
  __contains__ k s = (Ok false, s) →
  ∃ s1 s2, __setitem__ k v s = (Ok (), s1)
           ∧ __delitem__ k s1 = (Ok (), s2)
           ∧ __len__ s2 = ((__len__ s).1, s2)
           ∧ (∀ p, __getitem__ p s2 = ((__getitem__ p s).1, s2)
                   ∧ __contains__ p s2 = ((__contains__ p s).1, s2))
           ∧ _root s2 = update (mkpath (_root s) k) k without_value.
Proof.
  rewrite contains_eq. destruct (mapped s k) as [v0|] eqn:Hv; [done|].
  intros _. rewrite setitem_eq, Hv. eexists _, _. split; [done|].
  rewrite delitem_eq, mapped_with_value, decide_True by done.
  split; [done|]. cbn [_root _length]. split_and!.
  - unfold __len__, get_length. simpl. do 2 f_equal. lia.
  - intros p. rewrite !getitem_eq, !contains_eq, mapped_without_value.
    destruct (decide (p = k)) as [->|Hne].
    + by rewrite Hv.
    + rewrite update_value, decide_False by done.
      by rewrite mkpath_value.
  - simpl. rewrite update_update. by apply update_ext.
Qed.

(** Two [set]s on different keys give the same mapping and the same
    [len()] in either order. *)
Theorem set_commute s k1 v1 k2 v2 :
  k1 ≠ k2 →
  ∃ sa sb, __setitem__ k2 v2 (__setitem__ k1 v1 s).2 = (Ok (), sa)
           ∧ __setitem__ k1 v1 (__setitem__ k2 v2 s).2 = (Ok (), sb)
           ∧ (__len__ sa).1 = (__len__ sb).1
           ∧ ∀ p, (__getitem__ p sa).1 = (__getitem__ p sb).1
                  ∧ (__contains__ p sa).1 = (__contains__ p sb).1.
Proof.
  intros Hne. rewrite !setitem_eq. cbn [snd]. eexists _, _.
  split; [done|]. split; [done|].
  rewrite !mapped_with_value, !decide_False by done.
  change (deref (_root s) k1 ≫= value) with (mapped s k1).
  change (deref (_root s) k2 ≫= value) with (mapped s k2).
  cbn [_root _length]. split.
  - unfold __len__, get_length. simpl. f_equal.
    destruct (mapped s k1), (mapped s k2); lia.
  - intros p. rewrite !getitem_eq, !contains_eq, !mapped_with_value.
    cbn [fst].
    assert (∀ k v n,
      deref (update (mkpath (_root s) k) k (with_value v)) p ≫= value
      = mapped (mk_Trie (update (mkpath (_root s) k) k (with_value v)) n) p)
      as Hfold by done.
    rewrite (Hfold k1 v1 0), (Hfold k2 v2 0).
    rewrite !mapped_with_value.
    destruct (decide (p = k2)) as [Hp2|Hp2], (decide (p = k1)) as [Hp1|Hp1];
      done || congruence.
Qed.

(** When [updater] returns [v'], [transform(k, updater, d)] is
    [trie[k] = v']: the same result and the same state. *)
Theorem transform_is_set s k (updater : V → result A V) (d v' : V) :
  updater (default d (mapped s k)) = Ok v' →
  transform k updater d s = __setitem__ k v' s.
Proof. intros Hupd. by rewrite transform_eq, Hupd, setitem_eq. Qed.
End Composition.

(** ** Paths and entries: what [_find] creates and what nothing removes *)

Section Paths.
Context {A : Type} `{EqDecision A} {V : Type}.
Implicit Types (s : Trie A V) (e root ch : _Entry A V).
Implicit Types (key k p prefix : list A) (c : A) (x v : V).

Lemma size_update root key (f : _Entry A V → _Entry A V) :
  (∀ e, size (f e) = size e) → size (update root key f) = size root.
Proof.
  intros Hf. revert root. induction key as [|c key IH]; intros [v d];
    cbn [update dict value]; [done|].
  destruct (dict_get d c) as [ch|] eqn:Hc; [|done].
  rewrite !size_eq. f_equal.
  pose proof (sum_dict_set size d c (update ch key f)) as Hsum.
  rewrite Hc, IH in Hsum. cbn [from_option] in Hsum. lia.
Qed.

Lemma size_mkpath root key :
  (size root ≤ size (mkpath root key) ≤ size root + length key)%nat.
Proof.
  revert root. induction key as [|c key IH]; intros [v d]; [simpl; lia|].
  cbn [mkpath dict value length]. rewrite !size_eq.
  pose proof (sum_dict_set size d c
    (mkpath (default new_Entry (dict_get d c)) key)) as Hsum.
  specialize (IH (default new_Entry (dict_get d c))).
  destruct (dict_get d c) as [ch|]; cbn [from_option default] in *;
    unfold id in *.
  - lia.
  - change (size (new_Entry (A:=A) (V:=V))) with 1%nat in IH. lia.
Qed.

Lemma deref_mkpath_is_Some root key p :
  is_Some (deref root p) → is_Some (deref (mkpath root key) p).
Proof.
  revert root p. induction key as [|c key IH]; intros root p; [done|].
  destruct p as [|c' p]; [by eexists|]. cbn [mkpath deref dict].
  destruct (decide (c = c')) as [<-|Hne].
  - rewrite dict_get_set_eq.
    destruct (dict_get (dict root) c) as [ch|]; [apply IH | by intros [? ?]].
  - by rewrite dict_get_set_ne.
Qed.

Lemma deref_prefix_is_Some root p rest :
  is_Some (deref root (p ++ rest)) → is_Some (deref root p).
Proof.
  rewrite deref_app. destruct (deref root p); [by eexists | by intros [? ?]].
Qed.

(** [_find(key, create=True)] never raises and leaves the counter and the
    mapping alone; a second call changes nothing more; afterwards
    [_find] without creation reaches every prefix of [key]. *)
Theorem find_create s key :
  ∃ s1, _find key true s = (Ok key, s1)
        ∧ _find key true s1 = (Ok key, s1)
        ∧ (∀ n, _find (take n key) false s1 = (Ok (take n key), s1))
        ∧ _length s1 = _length s
        ∧ ∀ k, __getitem__ k s1 = ((__getitem__ k s).1, s1).
Proof.
  rewrite _find_true. eexists. split; [done|]. split_and!.
  - rewrite _find_true. cbn [_root _length].
    rewrite mkpath_existing; [done|]. rewrite mkpath_deref. by eexists.
  - intros n. rewrite _find_false. cbn [_root].
    pose proof (mkpath_deref (_root s) key) as Hd.
    rewrite <-(take_drop n key) in Hd at 2.
    assert (is_Some (deref (mkpath (_root s) key) (take n key))) as [e ->];
      [|done].
    eapply deref_prefix_is_Some. rewrite Hd. by eexists.
  - done.
  - intros k. by rewrite !getitem_eq, mapped_mkpath.
Qed.

(** A path that [_find] reaches stays reachable whatever is set, deleted
    or transformed afterwards: no operation unlinks an entry. *)
Theorem paths_persist s p :
  _find p false s = (Ok p, s) →
  (∀ k v, _find p false (__setitem__ k v s).2 = (Ok p, (__setitem__ k v s).2))
  ∧ (∀ k, _find p false (__delitem__ k s).2 = (Ok p, (__delitem__ k s).2))
  ∧ (∀ k value_selector d,
       _find p false (transform k value_selector d s).2
       = (Ok p, (transform k value_selector d s).2)).
Proof.
  rewrite _find_false.
  destruct (deref (_root s) p) as [e|] eqn:He; [|done]. intros _.
  assert (is_Some (deref (_root s) p)) as Hp by (by eexists).
  assert (∀ k n, is_Some (deref (_root (mk_Trie (mkpath (_root s) k) n)) p))
    as Hmk.
  { intros k n. by apply deref_mkpath_is_Some. }
  assert (∀ k n v, is_Some (deref (_root (mk_Trie
            (update (mkpath (_root s) k) k (with_value v)) n)) p)) as Hset.
  { intros k n v. cbn [_root]. rewrite deref_update_is_Some by done.
    by apply deref_mkpath_is_Some. }
  split_and!.
  - intros k v. rewrite setitem_eq, _find_false. cbn [snd].
    by destruct (Hset k (match mapped s k with
                         | Some _ => _length s
                         | None => _length s + 1
                         end) v) as [e' ->].
  - intros k. rewrite delitem_eq, _find_false.
    destruct (mapped s k); cbn [snd _root].
    + assert (is_Some (deref (update (_root s) k without_value) p))
        as [e' ->]; [|done].
      by rewrite deref_update_is_Some.
    + by rewrite He.
  - intros k f d. rewrite transform_eq, _find_false.
    destruct (f _) as [v|err]; cbn [snd].
    + by destruct (Hset k (match mapped s k with
                           | Some _ => _length s
                           | None => _length s + 1
                           end) v) as [e' ->].
    + by destruct (Hmk k (_length s)) as [e' ->].
Qed.

(** [delete] frees no entry, and [set] creates at most one entry per
    symbol of the key and frees none. *)
Theorem entries_never_freed s k v :
  size (_root (__delitem__ k s).2) = size (_root s)
  ∧ (size (_root s) ≤ size (_root (__setitem__ k v s).2)
     ≤ size (_root s) + length k)%nat.
Proof.
  split.
  - rewrite delitem_eq. destruct (mapped s k); [|done].
    cbn [snd _root]. apply size_update. by intros [? ?].
  - rewrite setitem_eq. cbn [snd _root].
    rewrite size_update by (by intros [? ?]). apply size_mkpath.
Qed.
End Paths.

(** ** More on the order and the contents of an enumeration *)

Section ListFacts2.
Context {K T U : Type} `{EqDecision K}.

Lemma filter_none (P : U → Prop) `{∀ x, Decision (P x)} (l : list U) :
  Forall (λ x, ¬ P x) l → filter P l = [].
Proof.
  induction 1 as [|x l Hx Hl IH]; [done|].
  by rewrite filter_cons_False.
Qed.

Lemma bind_nil_all {T' U'} (f : T' → list U') (l : list T') :
  (∀ q, q ∈ l → f q = []) → l ≫= f = [].
Proof.
  induction l as [|q l IH]; intros Hf; [done|].
  rewrite bind_cons, (Hf q) by (by left). rewrite IH; [done|].
  intros q' Hq'. apply Hf. by right.
Qed.

(** A bind over a dict in which only the pair of [c] contributes. *)
Lemma bind_single (l : list (K * T)) (c : K) (t : T) (f : K * T → list U) :
  NoDup l.*1 → (∀ q, q ∈ l → q.1 ≠ c → f q = []) → (c, t) ∈ l →
  l ≫= f = f (c, t).
Proof.
  induction l as [|q l IH]; [by intros _ _ ?%elem_of_nil|].
  rewrite fmap_cons, list.NoDup_cons. intros [Hq Hnd] Hf Hin.
  rewrite bind_cons. apply elem_of_cons in Hin as [<-|Hin].
  - rewrite bind_nil_all; [by rewrite app_nil_r|].
    intros q' Hq'. apply Hf; [by right|]. intros Hc. apply Hq.
    simpl. rewrite <-Hc. apply list_elem_of_fmap. by exists q'.
  - assert (q.1 ≠ c) as Hqc.
    { intros Hc. apply Hq. rewrite Hc. apply list_elem_of_fmap.
      by exists (c, t). }
    rewrite (Hf q) by (done || by left). rewrite IH; [done|done| |done].
    intros q' Hq'. apply Hf. by right.
Qed.

Lemma fmap_filter_keys (P : K → Prop) `{∀ x, Decision (P x)}
    (l : list (K * T)) :
  (filter (λ it, P it.1) l).*1 = filter P l.*1.
Proof.
  induction l as [|[k x] l IH]; [done|]. rewrite fmap_cons. simpl.
  destruct (decide (P k)) as [Hk|Hk].
  - rewrite !filter_cons_True by done. by rewrite fmap_cons, IH.
  - by rewrite !filter_cons_False.
Qed.
End ListFacts2.

Section Order.
Context {A : Type} `{EqDecision A} {V : Type}.
Implicit Types (s : Trie A V) (e root ch : _Entry A V).
Implicit Types (key k p prefix acc : list A) (c : A) (x v : V).

(** In a walk, a key comes before every key that extends it. *)
Lemma dfs_order prefix e k1 v1 k2 v2 :
  wf e → (k1, v1) ∈ dfs prefix e → (k2, v2) ∈ dfs prefix e →
  k1 `prefix_of` k2 → k1 ≠ k2 →
  ∃ l1 l2 l3, dfs prefix e = l1 ++ (k1, v1) :: l2 ++ (k2, v2) :: l3.
Proof.
  revert prefix. induction e as [v d IH] using _Entry_ind.
  intros prefix Hwf H1 H2 Hpre Hne. pose proof Hwf as [Hnd Hwfd]%wf_eq.
  rewrite dfs_eq in H1, H2. apply elem_of_app in H1 as [H1|H1].
  - destruct v as [x|]; [|by apply elem_of_nil in H1].
    apply list_elem_of_singleton in H1 as [= -> ->].
    apply elem_of_app in H2 as [H2|H2].
    + by apply list_elem_of_singleton in H2 as [= <- _].
    + apply list_elem_of_split in H2 as (l2 & l3 & Heq).
      exists [], l2, l3. by rewrite dfs_eq, Heq.
  - apply list_elem_of_bind in H1 as ([c ch] & H1 & Hc%elem_of_reverse_1).
    pose proof (dfs_prefix _ _ _ _ H1) as [r1 Hr1]. simpl in Hr1.
    destruct Hpre as [r Hr].
    apply elem_of_app in H2 as [H2|H2].
    + destruct v as [x|]; [|by apply elem_of_nil in H2].
      apply list_elem_of_singleton in H2 as [= -> _]. subst k1.
      rewrite <-(app_nil_r prefix) in Hr at 1.
      rewrite <-!app_assoc in Hr. by apply app_inv_head in Hr.
    + apply list_elem_of_bind in H2 as ([c' ch'] & H2 & Hc'%elem_of_reverse_1).
      pose proof (dfs_prefix _ _ _ _ H2) as [r2 Hr2]. simpl in Hr2, H1, H2.
      assert (c' = c) as ->.
      { rewrite Hr, Hr1, <-!app_assoc in Hr2.
        apply app_inv_head in Hr2. simpl in Hr2. congruence. }
      assert (ch' = ch) as ->.
      { pose proof (dict_get_NoDup d c ch Hnd Hc).
        pose proof (dict_get_NoDup d c ch' Hnd Hc'). congruence. }
      pose proof (proj1 (Forall_forall _ _) IH _ Hc) as IHch.
      pose proof (proj1 (Forall_forall _ _) Hwfd _ Hc) as Hwfch.
      destruct (IHch (prefix ++ [c]) Hwfch H1 H2) as (l1 & l2 & l3 & Heq);
        [by exists r | done |].
      apply elem_of_reverse_2, list_elem_of_split in Hc as (d1 & d2 & Hd).
      exists (match v with Some x => [(prefix, x)] | None => [] end
              ++ (d1 ≫= λ q, dfs (prefix ++ [q.1]) q.2) ++ l1), l2,
        (l3 ++ (d2 ≫= λ q, dfs (prefix ++ [q.1]) q.2)).
      cbn [fst snd] in Heq.
      rewrite dfs_eq, Hd, bind_app, bind_cons. cbn [fst snd]. rewrite Heq.
      by simplify_list_eq.
Qed.

(** The walk from the entry of [p] is the part of the full walk whose keys
    start with [p], in the same order. *)
Lemma dfs_filter_prefix acc root p e :
  wf root → deref root p = Some e →
  filter (λ it, (acc ++ p) `prefix_of` it.1) (dfs acc root)
  = dfs (acc ++ p) e.
Proof.
  revert acc root. induction p as [|c p IH]; intros acc [v d] Hwf Hp;
    cbn [deref dict] in Hp.
  - injection Hp as <-. rewrite app_nil_r.
    apply filter_all, Forall_forall. by intros [k x] Hin%dfs_prefix.
  - destruct (dict_get d c) as [ch|] eqn:Hc; [|done].
    apply wf_eq in Hwf as [Hnd Hwfd]. rewrite dfs_eq, filter_app.
    assert (filter (λ it, (acc ++ c :: p) `prefix_of` it.1)
              match v with Some x => [(acc, x)] | None => [] end = []) as ->.
    { destruct v; [|done]. rewrite filter_cons_False; [done|].
      simpl. intros Hpre%prefix_length. rewrite length_app in Hpre.
      simpl in Hpre. lia. }
    simpl. rewrite filter_bind.
    rewrite (bind_single (reverse d) c ch).
    + simpl. specialize (IH (acc ++ [c]) ch).
      rewrite <-app_assoc in IH. apply IH; [|done].
      by eapply wf_child.
    + by rewrite fmap_reverse, reverse_Permutation.
    + intros [c' ch'] _ Hne. simpl in *. apply filter_none, Forall_forall.
      intros [k x] [r1 Hr1]%dfs_prefix [r2 Hr2]. simpl in *.
      rewrite Hr1, <-!app_assoc in Hr2. apply app_inv_head in Hr2.
      simpl in Hr2. congruence.
    + by apply elem_of_reverse_2, dict_get_elem_of.
Qed.

(** In [list(items(prefix))] a key comes before every key that extends
    it: the pair of an entry is yielded before the pairs below it. *)
Theorem shorter_key_first generator_stop s prefix l k1 v1 k2 v2 :
  wf (_root s) →
  py_list (items_next generator_stop) (items prefix) s = (Ok l, s) →
  (k1, v1) ∈ l → (k2, v2) ∈ l → k1 `prefix_of` k2 → k1 ≠ k2 →
  ∃ l1 l2 l3, l = l1 ++ (k1, v1) :: l2 ++ (k2, v2) :: l3.
Proof.
  intros Hwf Hl H1 H2 Hpre Hne.
  destruct (deref (_root s) prefix) as [e|] eqn:He.
  - rewrite (items_list_eq _ _ s e) in Hl by done. injection Hl as <-.
    apply dfs_order; [exact (wf_deref _ _ _ Hwf He) | done..].
  - rewrite items_list_invalid in Hl by done.
    destruct generator_stop; [done|]. injection Hl as <-.
    by apply elem_of_nil in H1.
Qed.

End Order.

(** ** [__repr__] *)

Section ReprFacts.
Context {A : Type} `{EqDecision A} {V : Type}.
Variables (format_key : list A → string) (format_value : V → string).
Implicit Types (s : Trie A V) (g : frame A).

Lemma pairs_list_loop generator_stop fuel g acc s :
  wf (_root s) → frame_ok (_root s) g →
  (frame_weight (_root s) g < fuel)%nat →
  py_list_loop fuel (pairs_next format_key format_value generator_stop)
    g acc s
  = (Ok (acc ++ (format_pair format_key format_value
                   <$> frame_pending (_root s) g)), s).
Proof.
  intros Hwf. revert g acc.
  induction fuel as [|fuel IH]; intros g acc Hok Hfuel; [lia|].
  pose proof (items_next_spec generator_stop g s Hwf Hok) as Hnext.
  cbn [py_list_loop]. unfold pairs_next.
  destruct (frame_pending (_root s) g) as [|[k x] rest].
  - rewrite Hnext. by rewrite app_nil_r.
  - destruct Hnext as (g' & -> & Hok' & <- & Hlt).
    rewrite IH by (done || lia). by rewrite <-app_assoc.
Qed.

End ReprFacts.

(** ** The further properties on the trie of the docstring *)

(** [trie['today'] = -55] leaves [trie['she']] at 1. *)
Lemma set_frame_witness :
  Example.str "she" ≠ Example.str "today"
  ∧ ∃ s', __setitem__ (Example.str "today") (Example.PyInt (-55))
            Example.trie = (Ok (), s')
          ∧ __getitem__ (Example.str "she") s' = (Ok (Example.PyInt 1), s').
Proof.
  assert (Example.str "she" ≠ Example.str "today") as Hne
    by (vm_compute; discriminate).
  split; [exact Hne|].
  destruct (set_frame Example.trie (Example.str "today")
              (Example.PyInt (-55)) (Example.str "she") Hne)
    as (s' & Hset & Hget & _).
  exists s'. split; [exact Hset | exact Hget].
Defined.

(** [del trie['shells']] then [trie['shells'] = 19] gives the trie back. *)
Lemma delete_then_set_restores_witness :
  __getitem__ (Example.str "shells") Example.trie
  = (Ok (Example.PyInt 19), Example.trie)
  ∧ ∃ s1, __delitem__ (Example.str "shells") Example.trie = (Ok (), s1)
          ∧ __setitem__ (Example.str "shells") (Example.PyInt 19) s1
            = (Ok (), Example.trie).
Proof.
  assert (__getitem__ (Example.str "shells") Example.trie
          = (Ok (Example.PyInt 19), Example.trie)) as Hget by reflexivity.
  split; [exact Hget|].
  exact (delete_then_set_restores Example.trie (Example.str "shells")
           (Example.PyInt 19) Hget).
Defined.

(** [trie['shore'] = 7] then [del trie['shore']]: [len(trie)] is 5 again. *)
Lemma set_then_delete_restores_witness :
  __contains__ (Example.str "shore") Example.trie = (Ok false, Example.trie)
  ∧ ∃ s1 s2, __setitem__ (Example.str "shore") (Example.PyInt 7)
               Example.trie = (Ok (), s1)
             ∧ __delitem__ (Example.str "shore") s1 = (Ok (), s2)
             ∧ __len__ s2 = (Ok 5, s2).
Proof.
  assert (__contains__ (Example.str "shore") Example.trie
          = (Ok false, Example.trie)) as Hno by reflexivity.
  split; [exact Hno|].
  destruct (set_then_delete_restores Example.trie (Example.str "shore")
              (Example.PyInt 7) Hno)
    as (s1 & s2 & Hset & Hdel & Hlen & _).
  exists s1, s2. split; [exact Hset|]. split; [exact Hdel | exact Hlen].
Defined.

(** Setting [shore] and [sea] in either order. *)
Lemma set_commute_witness :
  Example.str "shore" ≠ Example.str "sea"
  ∧ ∃ sa sb,
      __setitem__ (Example.str "sea") (Example.PyInt 2)
        (__setitem__ (Example.str "shore") (Example.PyInt 7) Example.trie).2
      = (Ok (), sa)
      ∧ __setitem__ (Example.str "shore") (Example.PyInt 7)
          (__setitem__ (Example.str "sea") (Example.PyInt 2) Example.trie).2
        = (Ok (), sb)
      ∧ (__len__ sa).1 = (__len__ sb).1.
Proof.
  assert (Example.str "shore" ≠ Example.str "sea") as Hne
    by (vm_compute; discriminate).
  split; [exact Hne|].
  destruct (set_commute Example.trie (Example.str "shore") (Example.PyInt 7)
              (Example.str "sea") (Example.PyInt 2) Hne)
    as (sa & sb & Ha & Hb & Hlen & _).
  exists sa, sb. split; [exact Ha|]. split; [exact Hb | exact Hlen].
Defined.

(** [trie.transform('today', lambda old: old - 60, 0)] is
    [trie['today'] = -55]. *)
Lemma transform_is_set_witness :
  Example.minus60
    (default (Example.PyInt 0) (mapped Example.trie (Example.str "today")))
  = Ok (Example.PyInt (-55))
  ∧ transform (Example.str "today") Example.minus60 (Example.PyInt 0)
      Example.trie
    = __setitem__ (Example.str "today") (Example.PyInt (-55)) Example.trie.
Proof.
  assert (Example.minus60
    (default (Example.PyInt 0) (mapped Example.trie (Example.str "today")))
    = Ok (Example.PyInt (-55))) as Hupd by reflexivity.
  split; [exact Hupd|].
  exact (transform_is_set Example.trie (Example.str "today") Example.minus60
           (Example.PyInt 0) (Example.PyInt (-55)) Hupd).
Defined.

(** The path of [sh] is still there after [del trie['shells']]. *)
Lemma paths_persist_witness :
  _find (Example.str "sh") false Example.trie
  = (Ok (Example.str "sh"), Example.trie)
  ∧ _find (Example.str "sh") false
      (__delitem__ (Example.str "shells") Example.trie).2
    = (Ok (Example.str "sh"),
       (__delitem__ (Example.str "shells") Example.trie).2).
Proof.
  assert (_find (Example.str "sh") false Example.trie
          = (Ok (Example.str "sh"), Example.trie)) as Hfind by reflexivity.
  split; [exact Hfind|].
  exact (proj1 (proj2 (paths_persist Example.trie (Example.str "sh") Hfind))
           (Example.str "shells")).
Defined.

(** [she] comes before [shells] in [trie.items('sh')]. *)
Lemma shorter_key_first_witness :
  wf (_root Example.trie)
  ∧ ∃ l1 l2 l3,
      [(Example.str "she", Example.PyInt 1);
       (Example.str "shells", Example.PyInt 19)]
      = l1 ++ (Example.str "she", Example.PyInt 1)
           :: l2 ++ (Example.str "shells", Example.PyInt 19) :: l3.
Proof.
  split; [exact (proj1 Example_trie_Inv)|].
  apply (shorter_key_first true Example.trie (Example.str "sh")).
  - exact (proj1 Example_trie_Inv).
  - reflexivity.
  - apply list_elem_of_here.
  - apply list_elem_of_further, list_elem_of_here.
  - exists (Example.str "lls"). reflexivity.
  - vm_compute. discriminate.
Defined.

(** ** Tries with [str] keys *)

Section StrKeys.
Context {V : Type}.
Implicit Types (s : Trie ascii V) (k p prefix : list ascii).

(** With [str] keys and under the invariant, [list(iter(trie))] raises
    nothing and lists every member once and nothing else, and [len()] is
    the length of that list. *)
Theorem str_iter_len s :
  Inv s →
  ∃ ks, (∀ generator_stop,
           py_list (keys_next generator_stop) __iter__ s = (Ok ks, s))
        ∧ NoDup ks
        ∧ (∀ k, k ∈ ks ↔ __contains__ k s = (Ok true, s))
        ∧ __len__ s = (Ok (Z.of_nat (length ks)), s).
Proof.
  intros HInv. destruct (walk_keys s HInv) as (Hnd & Hin & Hlen).
  exists (dfs [] (_root s)).*1. split_and!.
  - intros gs. unfold __iter__. apply keys_list_eq; [apply HInv | done].
  - done.
  - intros k. rewrite Hin, contains_eq.
    destruct (mapped s k); split; (done || by eexists || by intros [? ?]).
  - unfold __len__, get_length. by rewrite Hlen.
Qed.

(** With [str] keys, for a prefix that has a path, [keys(prefix)] gives
    the keys of [iter(trie)] that start with the prefix, in the order that
    [iter] gives them; for a prefix without a path no key of [iter(trie)]
    starts with it. *)
Theorem keys_prefix_is_filter generator_stop s prefix :
  wf (_root s) →
  ∃ ks, py_list (keys_next generator_stop) __iter__ s = (Ok ks, s)
        ∧ match deref (_root s) prefix with
          | Some _ =>
              py_list (keys_next generator_stop) (keys prefix) s
              = (Ok (filter (λ k, prefix `prefix_of` k) ks), s)
          | None => filter (λ k, prefix `prefix_of` k) ks = []
          end.
Proof.
  intros Hwf. exists (dfs [] (_root s)).*1. split.
  - unfold __iter__. by apply keys_list_eq.
  - destruct (deref (_root s) prefix) as [e|] eqn:He.
    + rewrite <-fmap_filter_keys.
      rewrite (keys_list_eq _ _ s e) by done. do 3 f_equal.
      symmetry. by apply (dfs_filter_prefix [] (_root s) prefix e).
    + apply filter_none, Forall_forall. intros k Hk [rest ->].
      apply list_elem_of_fmap in Hk as ([k' x] & Hk' & Hin). simpl in Hk'.
      subst k'. apply (elem_of_items s [] (_root s)) in Hin as [_ Hv];
        [|done..].
      unfold mapped in Hv.
      destruct (deref (_root s) (prefix ++ rest)) as [e'|] eqn:He'; [|done].
      assert (is_Some (deref (_root s) prefix)) as [? ?]; [|congruence].
      eapply deref_prefix_is_Some. rewrite He'. by eexists.
Qed.

(** With [str] keys, which ['{}'.format] leaves as they are, and values
    whose formatting returns, [repr(trie)] raises nothing and writes
    nothing: it is the text [Trie(...)] around the pairs of [items()], in
    their order, each as [key=value] and separated by a comma and a
    space. *)
Theorem repr_eq (format_value : V → string) generator_stop s :
  wf (_root s) →
  __repr__ string_of_list_ascii format_value generator_stop s
  = (Ok (String.append "Trie("
           (String.append
              (String.concat ", "
                 (format_pair string_of_list_ascii format_value
                    <$> dfs [] (_root s)))
              ")")),
     s)
  ∧ py_list (items_next generator_stop) (items []) s
    = (Ok (dfs [] (_root s)), s).
Proof.
  intros Hwf. split; [|by apply items_list_eq].
  unfold __repr__, py_list. rewrite bind_eq.
  rewrite pairs_list_loop; [done|done|by eexists|simpl; lia].
Qed.

(** With [str] keys, after a [delete(k)] that returned, the lists of
    [items(prefix)] and of [keys(prefix)] are, for every prefix, the lists
    from before without the pair of [k] (or the same exception), and
    every pair that [items] yields is a pair of the mapping. *)
Theorem str_items_after_delete s k s' :
  wf (_root s) → __delitem__ k s = (Ok (), s') →
  (∀ generator_stop prefix,
     (py_list (items_next generator_stop) (items prefix) s').1
     = result_map (filter (λ it, it.1 ≠ k))
         (py_list (items_next generator_stop) (items prefix) s).1
     ∧ (py_list (keys_next generator_stop) (keys prefix) s').1
       = result_map (filter (λ key, key ≠ k))
           (py_list (keys_next generator_stop) (keys prefix) s).1)
  ∧ (∀ generator_stop prefix l key v,
       (py_list (items_next generator_stop) (items prefix) s').1 = Ok l →
       (key, v) ∈ l → __getitem__ key s' = (Ok v, s')).
Proof.
  intros Hwf. rewrite delitem_eq.
  destruct (mapped s k) as [v0|] eqn:Hv0; [|done]. intros [= <-].
  assert (is_Some (deref (_root s) k)) as Hk.
  { unfold mapped in Hv0. by destruct (deref (_root s) k). }
  assert (wf (update (_root s) k without_value)) as Hwf'.
  { apply update_wf; [done|]. intros. by apply without_value_wf. }
  split.
  - intros gs prefix. split.
    + by apply items_without_value.
    + by apply keys_without_value.
  - intros gs prefix l key v Hl Hin. rewrite getitem_eq.
    set (s' := mk_Trie _ _) in *.
    destruct (deref (_root s') prefix) as [e|] eqn:He.
    + rewrite (items_list_eq _ _ s' e) in Hl by done. injection Hl as <-.
      by apply (elem_of_items s') in Hin as [_ ->].
    + rewrite (items_list_invalid _ _ s') in Hl by done.
      destruct gs; [done|]. injection Hl as <-.
      by apply elem_of_nil in Hin.
Qed.
End StrKeys.

Section DeleteFrame.
Context {A : Type} `{EqDecision A} {V : Type}.
Implicit Types (s : Trie A V) (k p : list A).

(** After a [delete(k)] that returned, every other key has the
    membership and the value that it had, also a key that is a prefix of
    [k] or shares a path with it, and [len()] is one less. *)
Theorem delete_frame s k s' p :
  __delitem__ k s = (Ok (), s') → p ≠ k →
  __getitem__ p s' = ((__getitem__ p s).1, s')
  ∧ __contains__ p s' = ((__contains__ p s).1, s')
  ∧ __len__ s' = (Ok (_length s - 1), s').
Proof.
  rewrite delitem_eq. destruct (mapped s k) as [v0|]; [|done].
  intros [= <-] Hp. split_and!; [| |done].
  - rewrite !getitem_eq, mapped_without_value. by rewrite decide_False.
  - rewrite !contains_eq, mapped_without_value. by rewrite decide_False.
Qed.
End DeleteFrame.

(** Claim C9 (the code does not meet all of it).  The claim: a [delete(k)]
    that returned leaves the membership and the value of every other key
    as they were, and the entries that it leaves in the tree cannot be
    observed through [get], [contains], [len] or an enumeration.  The
    code: the first part holds ([delete_frame]).  The entries left behind
    cannot be observed through [get], [contains], [len] or the full
    enumeration, but they can through an enumeration by prefix: after
    [del trie['shells']] on [Trie(she=1, shells=19)], [trie.items('shel')]
    gives the empty list, where [Trie(she=1)], which maps the same keys to
    the same values, raises [RuntimeError].  The difference comes from
    the [raise StopIteration] of [items] on a prefix without a path, the
    defect of claim C1. *)
Theorem C9_entries_left_by_delete_are_seen :
  (∀ k, (__getitem__ k ExampleLeft.deleted).1
        = (__getitem__ k ExampleLeft.never_set).1
        ∧ (__contains__ k ExampleLeft.deleted).1
          = (__contains__ k ExampleLeft.never_set).1)
  ∧ (__len__ ExampleLeft.deleted).1 = (__len__ ExampleLeft.never_set).1
  ∧ (py_list (items_next true) (items []) ExampleLeft.deleted).1
    = (py_list (items_next true) (items []) ExampleLeft.never_set).1
  ∧ (py_list (items_next true) (items (Example.str "shel"))
       ExampleLeft.deleted).1 = Ok []
  ∧ (py_list (items_next true) (items (Example.str "shel"))
       ExampleLeft.never_set).1 = Raise RuntimeError.
Proof.
  split; [|by vm_compute].
  intros k. rewrite !getitem_eq, !contains_eq. cbn [fst].
  assert (mapped ExampleLeft.deleted k = mapped ExampleLeft.never_set k)
    as ->; [|done].
  unfold ExampleLeft.deleted, ExampleLeft.never_set, __init__.
  destruct (update_pairs_eq
    [(Example.str "she", Example.PyInt 1);
     (Example.str "shells", Example.PyInt 19)] (mk_Trie new_Entry 0))
    as (two & -> & Htwo & _).
  destruct (update_pairs_eq
    [(Example.str "she", Example.PyInt 1)] (mk_Trie new_Entry 0))
    as (one & -> & Hone & _).
  cbn [snd]. rewrite delitem_eq.
  pose proof (Htwo (Example.str "shells")) as Hshells.
  cbn [lookup_pairs] in Hshells. rewrite decide_True in Hshells by done.
  rewrite Hshells. cbn [snd]. rewrite mapped_without_value.
  change (deref (_root two) k ≫= value) with (mapped two k).
  rewrite Htwo, Hone. cbn [lookup_pairs].
  destruct (decide (k = Example.str "shells")) as [->|Hne]; [|done].
  by rewrite decide_False.
Qed.

(** [trie.keys('sh')] is the part of [list(trie)] that starts with [sh]. *)
Lemma keys_prefix_is_filter_witness :
  wf (_root Example.trie)
  ∧ ∃ ks, py_list (keys_next true) __iter__ Example.trie
          = (Ok ks, Example.trie)
          ∧ match deref (_root Example.trie) (Example.str "sh") with
            | Some _ =>
                py_list (keys_next true) (keys (Example.str "sh"))
                  Example.trie
                = (Ok (filter (λ k, Example.str "sh" `prefix_of` k) ks),
                   Example.trie)
            | None => filter (λ k, Example.str "sh" `prefix_of` k) ks = []
            end.
Proof.
  split; [exact (proj1 Example_trie_Inv)|].
  exact (keys_prefix_is_filter true Example.trie (Example.str "sh")
           (proj1 Example_trie_Inv)).
Defined.

(** [repr(trie)] *)
Lemma repr_eq_witness :
  wf (_root Example.trie)
  ∧ __repr__ string_of_list_ascii ExampleFormat.format_value true
      Example.trie
    = (Ok "Trie(today=5, sea=10, sells=5, she=1, shells=19)"%string,
       Example.trie).
Proof.
  split; [exact (proj1 Example_trie_Inv)|].
  pose proof (proj1 (repr_eq ExampleFormat.format_value true Example.trie
    (proj1 Example_trie_Inv))) as Hrepr.
  vm_compute in Hrepr |- *. exact Hrepr.
Defined.

(** [list(trie)] has the five keys, and [len(trie)] is 5. *)
Lemma str_iter_len_witness :
  Inv Example.trie
  ∧ ∃ ks, py_list (keys_next true) __iter__ Example.trie
          = (Ok ks, Example.trie)
          ∧ __len__ Example.trie = (Ok (Z.of_nat (length ks)), Example.trie).
Proof.
  split; [exact Example_trie_Inv|].
  destruct (str_iter_len Example.trie Example_trie_Inv)
    as (ks & Hlist & _ & _ & Hlen).
  exists ks. split; [exact (Hlist true) | exact Hlen].
Defined.

(** After [del trie['shells']], [trie.keys('sh')] is what it was without
    [shells]. *)
Lemma str_items_after_delete_witness :
  wf (_root Example.trie)
  ∧ __delitem__ (Example.str "shells") Example.trie
    = (Ok (), (__delitem__ (Example.str "shells") Example.trie).2)
  ∧ (py_list (keys_next true) (keys (Example.str "sh"))
       (__delitem__ (Example.str "shells") Example.trie).2).1
    = result_map (filter (λ key, key ≠ Example.str "shells"))
        (py_list (keys_next true) (keys (Example.str "sh")) Example.trie).1.
Proof.
  assert (__delitem__ (Example.str "shells") Example.trie
          = (Ok (), (__delitem__ (Example.str "shells") Example.trie).2))
    as Hdel by (vm_compute; reflexivity).
  split; [exact (proj1 Example_trie_Inv)|].
  split; [exact Hdel|].
  exact (proj2 (proj1 (str_items_after_delete Example.trie
    (Example.str "shells")
    (__delitem__ (Example.str "shells") Example.trie).2
    (proj1 Example_trie_Inv) Hdel) true (Example.str "sh"))).
Defined.

(** [del trie['shells']]: [she] stays a member, [len(trie)] is 4. *)
Lemma delete_frame_witness :
  __delitem__ (Example.str "shells") Example.trie
  = (Ok (), (__delitem__ (Example.str "shells") Example.trie).2)
  ∧ Example.str "she" ≠ Example.str "shells"
  ∧ __contains__ (Example.str "she")
      (__delitem__ (Example.str "shells") Example.trie).2
    = (Ok true, (__delitem__ (Example.str "shells") Example.trie).2)
  ∧ __len__ (__delitem__ (Example.str "shells") Example.trie).2
    = (Ok 4, (__delitem__ (Example.str "shells") Example.trie).2).
Proof.
  assert (Example.str "she" ≠ Example.str "shells") as Hne
    by (vm_compute; discriminate).
  assert (__delitem__ (Example.str "shells") Example.trie
          = (Ok (), (__delitem__ (Example.str "shells") Example.trie).2))
    as Hdel by (vm_compute; reflexivity).
  split; [exact Hdel|]. split; [exact Hne|].
  destruct (delete_frame Example.trie (Example.str "shells")
    (__delitem__ (Example.str "shells") Example.trie).2
    (Example.str "she") Hdel Hne) as (_ & Hin & Hlen).
  split; [vm_compute in Hin |- *; exact Hin | vm_compute in Hlen |- *; exact Hlen].
Defined.
